(** * DDPM: noise schedule, forward diffusion and reverse sampling

    A shallow embedding of the class [DDPM] of [main.py]
    ([ddpm_schedules], [forward], [sample] and [__init__]).

    Modelling conventions.
    - float32 values are idealised as real numbers ([R]); the theorems
      speak about exact arithmetic.  Where torch would produce NaN or an
      infinity (logarithm or square root of a negative number, division
      by zero) the model produces what [ln], [sqrt] and [/] of the
      Standard Library produce; no theorem about values relies on it.
      Rounding can merge neighbouring values and take a value to 0 or
      to 1: equalities between values are meant up to rounding, and the
      further properties of the schedule state order without strictness.
    - a one-dimensional buffer (what [register_buffer] stores) is a
      [list R]; a general tensor is a shape with an index function.
    - Python exceptions are the constructors of [exn]; a computation that
      may raise returns an [outcome].
    - torch's random generator and the denoising network [self.model]
      are parameters; the calls made to the network are recorded in the
      state that [forward] and [sample] thread. *)

From Stdlib Require Import String Ascii Decimal DecimalNat DecimalString.
From Stdlib Require Import Reals Lra Lia ZArith Bool List.
Import ListNotations.

Open Scope R_scope.

(** ** Exceptions *)

Inductive exn : Type :=
| AssertionError (msg : string)
| RuntimeError
| IndexError
| OSError.

Inductive outcome (A : Type) : Type :=
| Return (a : A)
| Raise (e : exn).

Arguments Return {A} a.
Arguments Raise {A} e.

Definition obind {A B : Type} (m : outcome A) (f : A -> outcome B) : outcome B :=
  match m with
  | Return a => f a
  | Raise e => Raise e
  end.

(** ** One-dimensional buffers *)

(** [torch.arange(lo, hi)]: the integers [lo, lo+1, ..., hi-1]; torch
    refuses an upper bound below the lower one. *)
Definition arange (lo hi : Z) : outcome (list Z) :=
  if (hi <? lo)%Z then Raise RuntimeError
  else Return (map (fun k => (lo + Z.of_nat k)%Z) (seq 0 (Z.to_nat (hi - lo)))).

(** [torch.arange(0, T + 1)] when it does not raise. *)
Definition steps (T : Z) : list Z :=
  map (fun k => (0 + Z.of_nat k)%Z) (seq 0 (Z.to_nat (T + 1 - 0))).

(** [torch.cumsum(l, dim=0)]: entry [t] is [l[0] + ... + l[t]]. *)
Fixpoint cumsum_from (acc : R) (l : list R) : list R :=
  match l with
  | [] => []
  | x :: l' => (acc + x) :: cumsum_from (acc + x) l'
  end.

Definition cumsum (l : list R) : list R :=
  match l with
  | [] => []
  | x :: l' => x :: cumsum_from x l'
  end.

(** Elementwise binary operation on two buffers of the same length. *)
Fixpoint map2 {A B C : Type} (f : A -> B -> C) (l1 : list A) (l2 : list B) : list C :=
  match l1, l2 with
  | a :: l1', b :: l2' => f a b :: map2 f l1' l2'
  | _, _ => []
  end.

(** ** ddpm_schedules *)

(** The local variables of [ddpm_schedules], one definition per line of
    the source; [ar] is [torch.arange(0, T + 1)]. *)
Definition beta_t (beta1 beta2 : R) (T : Z) (ar : list Z) : list R :=
  map (fun k => (beta2 - beta1) * IZR k / IZR T + beta1) ar.

Definition sqrt_beta_t (beta : list R) : list R := map sqrt beta.

Definition alpha_t (beta : list R) : list R := map (fun b => 1 - b) beta.

Definition log_alpha_t (alpha : list R) : list R := map ln alpha.

Definition alphabar_t (log_alpha : list R) : list R := map exp (cumsum log_alpha).

Definition sqrtab (alphabar : list R) : list R := map sqrt alphabar.

Definition oneover_sqrta (alpha : list R) : list R := map (fun a => 1 / sqrt a) alpha.

Definition sqrtmab (alphabar : list R) : list R := map (fun ab => sqrt (1 - ab)) alphabar.

Definition mab_over_sqrtmab_inv (alpha smab : list R) : list R :=
  map2 (fun a s => (1 - a) / s) alpha smab.

(** The dictionary that [ddpm_schedules] returns: its seven keys. *)
Record schedule : Type := mkSchedule {
  s_alpha_t : list R;
  s_oneover_sqrta : list R;
  s_sqrt_beta_t : list R;
  s_alphabar_t : list R;
  s_sqrtab : list R;
  s_sqrtmab : list R;
  s_mab_over_sqrtmab : list R
}.

Definition schedule_of (beta : list R) : schedule :=
  let alpha := alpha_t beta in
  let alphabar := alphabar_t (log_alpha_t alpha) in
  let smab := sqrtmab alphabar in
  {| s_alpha_t := alpha;
     s_oneover_sqrta := oneover_sqrta alpha;
     s_sqrt_beta_t := sqrt_beta_t beta;
     s_alphabar_t := alphabar;
     s_sqrtab := sqrtab alphabar;
     s_sqrtmab := smab;
     s_mab_over_sqrtmab := mab_over_sqrtmab_inv alpha smab |}.

Definition assert_msg : string := "beta1 and beta2 must be in (0, 1)".

(** [assert beta1 < beta2 < 1.0, ...] followed by the computation. *)
Definition ddpm_schedules (beta1 beta2 : R) (T : Z) : outcome schedule :=
  if Rlt_dec beta1 beta2 then
    if Rlt_dec beta2 1 then
      obind (arange 0 (T + 1)) (fun ar =>
        Return (schedule_of (beta_t beta1 beta2 T ar)))
    else Raise (AssertionError assert_msg)
  else Raise (AssertionError assert_msg).

(** The direct cumulative product of a buffer, [l[0] * l[1] * ... * l[t]]
    by repeated multiplication: the formulation that the log-space
    computation of [alphabar_t] stands for. *)
Definition cumprod_upto (l : list R) (t : nat) : R :=
  fold_left Rmult (firstn (S t) l) 1.

(** ** Tensors *)

(** A tensor is its shape and the value at each index (one coordinate
    per dimension); only the values at indices inside the shape matter. *)
Record tensor : Type := mkTensor {
  shape : list nat;
  elem : list nat -> R
}.

(** A Python number used where a tensor is expected, and a 0-dim tensor. *)
Definition scalar (r : R) : tensor := {| shape := []; elem := fun _ => r |}.

(** A tensor of shape [sh] whose entries all equal [r]. *)
Definition full (sh : list nat) (r : R) : tensor := {| shape := sh; elem := fun _ => r |}.

Definition valid_idx (sh idx : list nat) : Prop := Forall2 lt idx sh.

(** *** Broadcasting *)

Definition bdim (a b : nat) : option nat :=
  if (a =? b)%nat then Some a
  else if (a =? 1)%nat then Some b
  else if (b =? 1)%nat then Some a
  else None.

(** Shapes are aligned at the last dimension: the lists are reversed. *)
Fixpoint bshape_rev (a b : list nat) : option (list nat) :=
  match a, b with
  | [], _ => Some b
  | _, [] => Some a
  | x :: a', y :: b' =>
      match bdim x y, bshape_rev a' b' with
      | Some d, Some r => Some (d :: r)
      | _, _ => None
      end
  end.

Definition broadcast_shapes (a b : list nat) : option (list nat) :=
  option_map (@rev nat) (bshape_rev (rev a) (rev b)).

(** The index of an operand of shape [sh] that the index [idx] of the
    broadcast result reads: the trailing coordinates, with 0 wherever
    the operand has size 1. *)
Definition bidx (sh idx : list nat) : list nat :=
  map2 (fun d i => if (d =? 1)%nat then 0%nat else i) sh
       (skipn (length idx - length sh) idx).

Definition tensor_op (f : R -> R -> R) (a b : tensor) : outcome tensor :=
  match broadcast_shapes (shape a) (shape b) with
  | Some s =>
      Return {| shape := s;
                elem := fun idx => f (elem a (bidx (shape a) idx))
                                     (elem b (bidx (shape b) idx)) |}
  | None => Raise RuntimeError
  end.

Definition tmul : tensor -> tensor -> outcome tensor := tensor_op Rmult.
Definition tadd : tensor -> tensor -> outcome tensor := tensor_op Rplus.
Definition tsub : tensor -> tensor -> outcome tensor := tensor_op Rminus.

(** *** Indexing *)

(** Python's normalisation of an integer index into a sequence of
    length [len]: negative indices count from the end. *)
Definition pyindex (len : nat) (i : Z) : option nat :=
  let n := Z.of_nat len in
  if ((0 <=? i) && (i <? n))%Z then Some (Z.to_nat i)
  else if ((- n <=? i) && (i <? 0))%Z then Some (Z.to_nat (n + i))
  else None.

(** [buf[i]] for an integer [i]: a 0-dim tensor. *)
Definition getitem (buf : list R) (i : Z) : outcome tensor :=
  match pyindex (length buf) i with
  | Some k => Return (scalar (nth k buf 0))
  | None => Raise IndexError
  end.

(** [buf[_ts, None, None, None]] for a 1-D integer tensor [_ts]: shape
    [(len(_ts), 1, 1, 1)], entry [b] being [buf[_ts[b]]]. *)
Definition getitem_ts (buf : list R) (ts : list Z) : outcome tensor :=
  if forallb (fun t => match pyindex (length buf) t with Some _ => true | None => false end) ts
  then Return {| shape := [length ts; 1%nat; 1%nat; 1%nat];
                 elem := fun idx =>
                   match pyindex (length buf) (nth (hd 0%nat idx) ts 0%Z) with
                   | Some k => nth k buf 0
                   | None => 0
                   end |}
  else Raise IndexError.

(** [x.shape[0]]. *)
Definition shape0 (x : tensor) : outcome nat :=
  match shape x with
  | [] => Raise IndexError
  | d :: _ => Return d
  end.

(** [x[:n]]: the first [n] entries along dimension 0. *)
Definition slice0 (n : nat) (x : tensor) : outcome tensor :=
  match shape x with
  | [] => Raise IndexError
  | d :: sh => Return {| shape := Nat.min n d :: sh; elem := elem x |}
  end.

(** [_ts / n_T] for a 1-D integer tensor and a Python integer: true
    division, shape [(len(_ts),)]. *)
Definition ts_div (ts : list Z) (n : Z) : tensor :=
  {| shape := [length ts];
     elem := fun idx => IZR (nth (hd 0%nat idx) ts 0%Z) / IZR n |}.

(** *** Mean squared error *)

(** All indices of a shape, in row-major order. *)
Fixpoint indices (sh : list nat) : list (list nat) :=
  match sh with
  | [] => [[]]
  | d :: sh' => flat_map (fun i => map (cons i) (indices sh')) (seq 0 d)
  end.

Definition numel (sh : list nat) : nat := fold_right Nat.mul 1%nat sh.

Definition tsum (t : tensor) : R :=
  fold_right Rplus 0 (map (elem t) (indices (shape t))).

(** [nn.MSELoss()(input, target)]: both arguments are broadcast to a
    common shape (torch only warns when the shapes differ) and the mean
    of the squared differences is returned; shapes that cannot be
    broadcast raise. *)
Definition mse_loss (input target : tensor) : outcome tensor :=
  obind (tensor_op (fun a b => (a - b) * (a - b)) input target) (fun d =>
    Return (scalar (tsum d / INR (numel (shape d))))).

(** The value that [mse_loss] returns when the shapes broadcast to [s]. *)
Definition mean_sq_diff (input target : tensor) (s : list nat) : R :=
  fold_right Rplus 0
    (map (fun idx => (elem input (bidx (shape input) idx) - elem target (bidx (shape target) idx))
                     * (elem input (bidx (shape input) idx) - elem target (bidx (shape target) idx)))
         (indices s))
  / INR (numel s).

(** ** Random generator, denoiser and the state threaded by the model *)

(** torch's generator: [randint_gen lo hi n] is
    [torch.randint(lo, hi, (n,))] and [randn_gen sh] is
    [torch.randn] at the shape [sh]; both return the draw and the advanced state. *)
Record torch_rng : Type := mkRng {
  Gen : Type;
  randint_gen : Z -> Z -> nat -> Gen -> list Z * Gen;
  randn_gen : list nat -> Gen -> tensor * Gen
}.

(** What torch guarantees of its draws: [randint] returns [n] integers
    of the half-open range, [randn] a tensor of the shape asked for. *)
Definition rng_ok (E : torch_rng) : Prop :=
  (forall lo hi n g, (lo < hi)%Z ->
     length (fst (randint_gen E lo hi n g)) = n /\
     Forall (fun v => (lo <= v < hi)%Z) (fst (randint_gen E lo hi n g))) /\
  (forall sh g, shape (fst (randn_gen E sh g)) = sh).

(** The denoising network: any callable on (noisy sample, timestep);
    it may raise. *)
Definition denoiser : Type := tensor -> tensor -> outcome tensor.

(** The interface the network is expected to honour: it returns a
    tensor of the shape of its first argument. *)
Definition shape_preserving (model : denoiser) : Prop :=
  forall x t, exists y, model x t = Return y /\ shape y = shape x.

Section Core.

Variable E : torch_rng.
Variable model : denoiser.

(** The generator state and the list of calls made to [self.model], in
    order: the arguments of each. *)
Record world : Type := mkWorld {
  gen : Gen E;
  calls : list (tensor * tensor)
}.

(** A computation: it may raise, and it changes the state either way. *)
Definition M (A : Type) : Type := world -> outcome A * world.

Definition ret {A : Type} (a : A) : M A := fun w => (Return a, w).

Definition bind {A B : Type} (m : M A) (f : A -> M B) : M B :=
  fun w =>
    match m w with
    | (Return a, w') => f a w'
    | (Raise e, w') => (Raise e, w')
    end.

Definition lift {A : Type} (o : outcome A) : M A := fun w => (o, w).

Notation "x <- m ;; k" := (bind m (fun x => k))
  (at level 61, m at next level, right associativity).

(** [torch.randint(lo, hi, (n,))]; torch refuses an empty range. *)
Definition randint (lo hi : Z) (n : nat) : M (list Z) :=
  fun w =>
    if (lo <? hi)%Z then
      (Return (fst (randint_gen E lo hi n (gen w))),
       {| gen := snd (randint_gen E lo hi n (gen w)); calls := calls w |})
    else (Raise RuntimeError, w).

(** [torch.randn] at the shape [sh] and [torch.randn_like]. *)
Definition randn (sh : list nat) : M tensor :=
  fun w =>
    (Return (fst (randn_gen E sh (gen w))),
     {| gen := snd (randn_gen E sh (gen w)); calls := calls w |}).

(** [self.model(x, t)]: the call is recorded, then its outcome returned. *)
Definition call_model (x t : tensor) : M tensor :=
  fun w => (model x t, {| gen := gen w; calls := calls w ++ [(x, t)] |}).

(** A [for] loop over a list, threading the loop variable's state. *)
Fixpoint for_each {A S : Type} (body : S -> A -> M S) (l : list A) (s : S) : M S :=
  match l with
  | [] => ret s
  | a :: l' => s' <- body s a ;; for_each body l' s'
  end.

(** [range(start, stop, -1)]. *)
Definition range_desc (start stop : Z) : list Z :=
  map (fun k => (start - Z.of_nat k)%Z) (seq 0 (Z.to_nat (start - stop))).

(** ** The class DDPM *)

(** The attributes of a [DDPM] object that the methods read: the
    registered buffers and [n_T]. *)
Record DDPM : Type := mkDDPM {
  buffers : schedule;
  n_T : Z
}.

(** [__init__]: registers the buffers of [ddpm_schedules(betas[0],
    betas[1], n_T)] and stores [n_T]. *)
Definition DDPM_init (betas : R * R) (T : Z) : outcome DDPM :=
  obind (ddpm_schedules (fst betas) (snd betas) T) (fun s =>
    Return {| buffers := s; n_T := T |}).

Definition forward (self : DDPM) (x : tensor) : M tensor :=
  B <- lift (shape0 x) ;;
  _ts <- randint 1 (n_T self + 1) B ;;
  noise <- randn (shape x) ;;
  a <- lift (getitem_ts (s_sqrtab (buffers self)) _ts) ;;
  ax <- lift (tmul a x) ;;
  b <- lift (getitem_ts (s_sqrtmab (buffers self)) _ts) ;;
  bn <- lift (tmul b noise) ;;
  x_t <- lift (tadd ax bn) ;;
  pred <- call_model x_t (ts_div _ts (n_T self)) ;;
  lift (mse_loss noise pred).

(** The body of the loop of [sample], for the loop variable [i]. *)
Definition sample_step (self : DDPM) (n_sample : nat) (size : list nat)
    (x_i : tensor) (i : Z) : M tensor :=
  let t_is := full [n_sample; 1%nat; 1%nat; 1%nat] (IZR i / IZR (n_T self)) in
  z <- (if (1 <? i)%Z then randn (n_sample :: size) else ret (scalar 0)) ;;
  eps <- call_model x_i t_is ;;
  x_i <- lift (slice0 n_sample x_i) ;;
  c1 <- lift (getitem (s_oneover_sqrta (buffers self)) i) ;;
  c2 <- lift (getitem (s_mab_over_sqrtmab (buffers self)) i) ;;
  e <- lift (tmul eps c2) ;;
  d <- lift (tsub x_i e) ;;
  l <- lift (tmul c1 d) ;;
  c3 <- lift (getitem (s_sqrt_beta_t (buffers self)) i) ;;
  r <- lift (tmul c3 z) ;;
  lift (tadd l r).

Definition sample (self : DDPM) (n_sample : nat) (size : list nat) : M tensor :=
  x_i <- randn (n_sample :: size) ;;
  for_each (sample_step self n_sample size) (range_desc (n_T self) 0) x_i.

End Core.

Arguments mkWorld {E} gen calls.
Arguments gen {E} w.
Arguments calls {E} w.
Arguments ret {E A} a.
Arguments bind {E A B} m f.
Arguments lift {E A} o.
Arguments for_each {E A S} body l s.

(** ** Stand-ins for the collaborators *)

(** A generator whose state counts the draws made; [randint] returns the
    lower bound and [randn] zeros. *)
Definition stub_rng : torch_rng :=
  {| Gen := nat;
     randint_gen := fun lo hi n g => (repeat lo n, S g);
     randn_gen := fun sh g => (full sh 0, S g) |}.

(** A denoiser that predicts zero noise, of the shape of its input. *)
Definition zero_denoiser : denoiser := fun x t => Return (full (shape x) 0).

(** A denoiser that breaks the interface: whatever its input, it
    returns a tensor of shape (1, 1, 1, 1). *)
Definition flat_denoiser : denoiser := fun x t => Return (full [1; 1; 1; 1]%nat 0).

(** Another one: it returns a batch of three examples. *)
Definition wide_denoiser : denoiser := fun x t => Return (full [3; 1; 2; 2]%nat 0).

(** The object that [ImageGenerator] builds, [betas = (1e-4, 0.02)],
    for a given [n_T]. *)
Definition default_ddpm (T : Z) : DDPM :=
  {| buffers := schedule_of (beta_t (1 / 10000) (1 / 50) T (steps T)); n_T := T |}.

(** The state before any draw and any call. *)
Definition world0 : world stub_rng := @mkWorld stub_rng 0%nat [].

(** A timestep tensor all of whose entries lie in the interval (0, 1]. *)
Definition unit_interval_timestep (t : tensor) : Prop :=
  forall idx, valid_idx (shape t) idx -> 0 < elem t idx <= 1.

(** ** Names for the quantities of one sampling iteration *)

(** The noise [z] of iteration [i] and the generator after drawing it. *)
Definition step_noise (E : torch_rng) (n_sample : nat) (size : list nat) (i : Z)
    (g : Gen E) : tensor :=
  if (1 <? i)%Z then fst (randn_gen E (n_sample :: size) g) else scalar 0.

Definition step_gen (E : torch_rng) (n_sample : nat) (size : list nat) (i : Z)
    (g : Gen E) : Gen E :=
  if (1 <? i)%Z then snd (randn_gen E (n_sample :: size) g) else g.

(** The normalized timestep of iteration [i]: [i / n_T] repeated to
    shape (n_sample, 1, 1, 1). *)
Definition step_time (self : DDPM) (n_sample : nat) (i : Z) : tensor :=
  full [n_sample; 1; 1; 1]%nat (IZR i / IZR (n_T self)).

(** ** The class ImageGenerator *)

(** The hyperparameters and the sampler of an [ImageGenerator]; the
    data loaders, the network and the optimizer belong to the training
    framework. *)
Record ImageGenerator : Type := mkImageGenerator {
  g_epoch : nat;
  g_sample_num : nat;
  g_batch_size : nat;
  g_lr : R;
  g_n_T : Z;
  g_sampler : DDPM
}.

(** [ImageGenerator.__init__]: the fixed hyperparameters and the sampler
    [DDPM(betas=(1e-4, 0.02), n_T=n_T)]. *)
Definition ImageGenerator_init (lr : R) (T : Z) : outcome ImageGenerator :=
  obind (DDPM_init (1 / 10000, 1 / 50) T) (fun d =>
    Return {| g_epoch := 20; g_sample_num := 100; g_batch_size := 256;
              g_lr := lr; g_n_T := T; g_sampler := d |}).

(** The format [{epoch:02}] of a non-negative integer: its decimal
    digits, padded with a zero to two characters. *)
Definition format_02 (epoch : nat) : string :=
  let s := NilEmpty.string_of_uint (Nat.to_uint epoch) in
  if (String.length s <? 2)%nat then String "0" s else s.

Definition starts_with_sep (s : string) : bool :=
  match s with
  | String c _ => Ascii.eqb c "/"
  | EmptyString => false
  end.

Fixpoint ends_with_sep (s : string) : bool :=
  match s with
  | EmptyString => false
  | String c EmptyString => Ascii.eqb c "/"
  | String _ s' => ends_with_sep s'
  end.

(** [os.path.join(a, b)] on a POSIX system. *)
Definition path_join (a b : string) : string :=
  if starts_with_sep b then b
  else
    match a with
    | EmptyString => b
    | _ => if ends_with_sep a then (a ++ b)%string else (a ++ "/" ++ b)%string
    end.

(** The file written for an epoch: [os.path.join(output_path, f'{epoch:02}.jpg')]. *)
Definition image_path (output_path : string) (epoch : nat) : string :=
  path_join output_path (format_02 epoch ++ ".jpg")%string.

(** A call of [save_image]: the batch, the file and the number of images
    per row. *)
Record saved_image : Type := mkSaved {
  image : tensor;
  path : string;
  nrow : nat
}.

(** The file system belongs to the operating system: a [file_system]
    gives, for a path, the outcome of creating that directory together
    with its missing parents, nothing being done when it exists. *)
Definition file_system : Type := string -> outcome unit.

(** [os.makedirs(path, exist_ok=True)]: the empty path names no
    directory and is refused. *)
Definition makedirs (fs : file_system) (path : string) : outcome unit :=
  match path with
  | EmptyString => Raise OSError
  | _ => fs path
  end.

(** [visualize_results]: [model] is the network in evaluation mode; the
    value returned stands for the call of [save_image].
    [int(np.floor(np.sqrt(n)))] is the integer square root. *)
Definition visualize_results (E : torch_rng) (model : denoiser) (fs : file_system)
    (self : ImageGenerator) (epoch : nat) (output_path : string) : M E saved_image :=
  bind (lift (makedirs fs output_path)) (fun _ =>
    let tot_num_samples := g_sample_num self in
    let image_frame_dim := Nat.sqrt tot_num_samples in
    bind (sample E model (g_sampler self) tot_num_samples [1; 28; 28]%nat) (fun out =>
      ret {| image := out;
             path := image_path output_path epoch;
             nrow := image_frame_dim |})).

(** A file system in which every directory can be created. *)
Definition writable_fs : file_system := fun _ => Return tt.

(** * Properties *)

(** ** The primitives on small inputs *)

Example arange_four : arange 0 4 = Return [0; 1; 2; 3]%Z.
Proof. reflexivity. Qed.

Example arange_empty : arange 0 0 = Return [].
Proof. reflexivity. Qed.

Example arange_negative : arange 0 (-1) = Raise RuntimeError.
Proof. reflexivity. Qed.

Example range_desc_three : range_desc 3 0 = [3; 2; 1]%Z.
Proof. reflexivity. Qed.

Example range_desc_none : range_desc 0 0 = [].
Proof. reflexivity. Qed.

Example broadcast_per_example_shape :
  broadcast_shapes [2; 1; 1; 1]%nat [2; 1; 28; 28]%nat = Some [2; 1; 28; 28]%nat.
Proof. reflexivity. Qed.

Example broadcast_flat_shape :
  broadcast_shapes [2; 1; 2; 2]%nat [1; 1; 1; 1]%nat = Some [2; 1; 2; 2]%nat.
Proof. reflexivity. Qed.

Example broadcast_refused :
  broadcast_shapes [2; 1; 2; 2]%nat [3; 1; 2; 2]%nat = None.
Proof. reflexivity. Qed.

Example pyindex_last : pyindex 5 (-1) = Some 4%nat.
Proof. reflexivity. Qed.

Example pyindex_out : pyindex 5 5 = None.
Proof. reflexivity. Qed.

Example indices_two_by_two :
  indices [2; 2]%nat = [[0; 0]; [0; 1]; [1; 0]; [1; 1]]%nat.
Proof. reflexivity. Qed.

Example cumsum_three (a b c : R) : cumsum [a; b; c] = [a; a + b; a + b + c].
Proof. reflexivity. Qed.

(** ** Lists and buffers *)

Lemma nth_map_lt {A B : Type} (f : A -> B) (l : list A) (n : nat) (d : B) (d' : A) :
  (n < length l)%nat -> nth n (map f l) d = f (nth n l d').
Proof.
  intros H. rewrite (nth_indep (map f l) d (f d')).
  - apply map_nth.
  - now rewrite length_map.
Qed.

Lemma map2_length {A B C : Type} (f : A -> B -> C) (l1 : list A) (l2 : list B) :
  length l1 = length l2 -> length (map2 f l1 l2) = length l1.
Proof.
  revert l2. induction l1 as [|a l1 IH]; intros [|b l2] H; simpl in *; try congruence.
  f_equal. apply IH. congruence.
Qed.

Lemma map2_nth {A B C : Type} (f : A -> B -> C) (l1 : list A) (l2 : list B)
    (n : nat) (dc : C) (da : A) (db : B) :
  (n < length l1)%nat -> (n < length l2)%nat ->
  nth n (map2 f l1 l2) dc = f (nth n l1 da) (nth n l2 db).
Proof.
  revert l2 n. induction l1 as [|a l1 IH]; intros [|b l2] [|n] H1 H2; simpl in *; try lia.
  - reflexivity.
  - apply IH; lia.
Qed.

Lemma cumsum_from_length (l : list R) (acc : R) :
  length (cumsum_from acc l) = length l.
Proof.
  revert acc. induction l as [|x l IH]; intros acc; simpl; [reflexivity|].
  now rewrite IH.
Qed.

Lemma cumsum_length (l : list R) : length (cumsum l) = length l.
Proof.
  destruct l as [|x l]; simpl; [reflexivity|]. now rewrite cumsum_from_length.
Qed.

Lemma arange_steps (T : Z) : (-1 <= T)%Z -> arange 0 (T + 1) = Return (steps T).
Proof.
  intros H. unfold arange, steps.
  destruct (Z.ltb_spec (T + 1) 0); [lia | reflexivity].
Qed.

Lemma steps_length (T : Z) : length (steps T) = Z.to_nat (T + 1).
Proof.
  unfold steps. rewrite length_map, length_seq. f_equal. lia.
Qed.

Lemma steps_nth (T : Z) (t : nat) :
  (t < Z.to_nat (T + 1))%nat -> nth t (steps T) 0%Z = Z.of_nat t.
Proof.
  intros H. unfold steps.
  rewrite (nth_map_lt _ _ _ _ 0%nat).
  - rewrite seq_nth; [lia|]. replace (T + 1 - 0)%Z with (T + 1)%Z by lia. exact H.
  - rewrite length_seq. replace (T + 1 - 0)%Z with (T + 1)%Z by lia. exact H.
Qed.

(** ** The schedule *)

Lemma ddpm_schedules_valid (beta1 beta2 : R) (T : Z) :
  beta1 < beta2 < 1 -> (-1 <= T)%Z ->
  ddpm_schedules beta1 beta2 T = Return (schedule_of (beta_t beta1 beta2 T (steps T))).
Proof.
  intros [H1 H2] HT. unfold ddpm_schedules.
  destruct (Rlt_dec beta1 beta2); [|contradiction].
  destruct (Rlt_dec beta2 1); [|contradiction].
  rewrite (arange_steps T HT). reflexivity.
Qed.

Lemma ddpm_schedules_assert (beta1 beta2 : R) (T : Z) :
  ~ (beta1 < beta2 < 1) ->
  ddpm_schedules beta1 beta2 T = Raise (AssertionError assert_msg).
Proof.
  intros H. unfold ddpm_schedules.
  destruct (Rlt_dec beta1 beta2); [|reflexivity].
  destruct (Rlt_dec beta2 1); [|reflexivity].
  exfalso. apply H. split; assumption.
Qed.

(** A [step_count] below -1 passes the assertion and is refused by
    [torch.arange]. *)
Lemma ddpm_schedules_negative_steps (beta1 beta2 : R) (T : Z) :
  beta1 < beta2 < 1 -> (T < -1)%Z -> ddpm_schedules beta1 beta2 T = Raise RuntimeError.
Proof.
  intros [H1 H2] HT. unfold ddpm_schedules.
  destruct (Rlt_dec beta1 beta2); [|contradiction].
  destruct (Rlt_dec beta2 1); [|contradiction].
  unfold arange. destruct (Z.ltb_spec (T + 1) 0); [reflexivity | lia].
Qed.

Lemma beta_t_length (beta1 beta2 : R) (T : Z) :
  length (beta_t beta1 beta2 T (steps T)) = Z.to_nat (T + 1).
Proof.
  unfold beta_t. rewrite length_map. apply steps_length.
Qed.

Lemma beta_t_nth (beta1 beta2 : R) (T : Z) (t : nat) :
  (t < Z.to_nat (T + 1))%nat ->
  nth t (beta_t beta1 beta2 T (steps T)) 0 =
  (beta2 - beta1) * INR t / IZR T + beta1.
Proof.
  intros H. unfold beta_t.
  rewrite (nth_map_lt _ _ _ _ 0%Z) by (now rewrite steps_length).
  rewrite steps_nth by exact H. now rewrite <- INR_IZR_INZ.
Qed.

(** Every entry of beta lies between [beta1] and [beta2]. *)
Lemma beta_t_bounds (beta1 beta2 : R) (T : Z) (t : nat) :
  beta1 < beta2 -> (1 <= T)%Z -> (t < Z.to_nat (T + 1))%nat ->
  beta1 <= nth t (beta_t beta1 beta2 T (steps T)) 0 <= beta2.
Proof.
  intros Hb HT Ht. rewrite beta_t_nth by exact Ht.
  assert (H0 : 0 < IZR T) by (apply IZR_lt; lia).
  assert (H1 : 0 <= INR t) by apply pos_INR.
  assert (H2 : INR t <= IZR T).
  { rewrite INR_IZR_INZ. apply IZR_le. lia. }
  assert (H3 : 0 <= INR t / IZR T <= 1).
  { split.
    - apply Rmult_le_pos; [exact H1|]. left. now apply Rinv_0_lt_compat.
    - apply (Rmult_le_reg_r (IZR T)); [exact H0|].
      unfold Rdiv. rewrite Rmult_assoc, Rinv_l by lra. lra. }
  replace ((beta2 - beta1) * INR t / IZR T) with ((beta2 - beta1) * (INR t / IZR T))
    by (unfold Rdiv; ring).
  nra.
Qed.

Lemma alpha_t_positive (beta1 beta2 : R) (T : Z) :
  beta1 < beta2 < 1 -> (1 <= T)%Z ->
  Forall (fun a => 0 < a) (alpha_t (beta_t beta1 beta2 T (steps T))).
Proof.
  intros [H1 H2] HT. apply Forall_forall. intros a Ha.
  destruct (In_nth _ _ 0 Ha) as [t [Ht Hnth]].
  unfold alpha_t in Ht, Hnth. rewrite length_map in Ht.
  rewrite (nth_map_lt _ _ _ _ 0) in Hnth by exact Ht.
  rewrite beta_t_length in Ht.
  pose proof (beta_t_bounds beta1 beta2 T t H1 HT Ht). lra.
Qed.

(** Exponentiating the running sum of logarithms gives the running
    product, for positive entries. *)
Lemma exp_cumsum_from (l : list R) (acc : R) (t : nat) :
  Forall (fun a => 0 < a) l -> (t < length l)%nat ->
  nth t (map exp (cumsum_from acc (map ln l))) 0 =
  fold_left Rmult (firstn (S t) l) (exp acc).
Proof.
  revert acc t. induction l as [|x l IH]; intros acc t Hpos Ht; simpl in Ht; [lia|].
  inversion Hpos as [|? ? Hx Hl]; subst.
  assert (Hstep : exp (acc + ln x) = exp acc * x).
  { rewrite exp_plus, exp_ln by exact Hx. reflexivity. }
  destruct t as [|t].
  - simpl. exact Hstep.
  - change (nth t (map exp (cumsum_from (acc + ln x) (map ln l))) 0 =
            fold_left Rmult (firstn (S t) l) (exp acc * x)).
    rewrite IH by (assumption || lia). now rewrite Hstep.
Qed.

Lemma alphabar_t_cumprod (l : list R) (t : nat) :
  Forall (fun a => 0 < a) l -> (t < length l)%nat ->
  nth t (alphabar_t (log_alpha_t l)) 0 = cumprod_upto l t.
Proof.
  intros Hpos Ht. unfold alphabar_t, log_alpha_t, cumprod_upto.
  destruct l as [|x l]; simpl in Ht; [lia|].
  inversion Hpos as [|? ? Hx Hl]; subst.
  destruct t as [|t].
  - simpl. rewrite exp_ln by exact Hx. ring.
  - change (nth t (map exp (cumsum_from (ln x) (map ln l))) 0 =
            fold_left Rmult (firstn (S t) l) (1 * x)).
    rewrite exp_cumsum_from by (assumption || lia).
    rewrite exp_ln by exact Hx. now rewrite Rmult_1_l.
Qed.

Lemma alphabar_t_length (l : list R) : length (alphabar_t (log_alpha_t l)) = length l.
Proof.
  unfold alphabar_t, log_alpha_t. now rewrite length_map, cumsum_length, length_map.
Qed.

(** The entries of index 0 of the schedule: the cumulative product
    starts with [alpha[0] = 1 - beta1]. *)
Lemma schedule_step_zero (beta1 beta2 : R) (T : Z) :
  beta1 < beta2 < 1 -> (1 <= T)%Z ->
  let s := schedule_of (beta_t beta1 beta2 T (steps T)) in
  nth 0 (s_alphabar_t s) 0 = 1 - beta1 /\ nth 0 (s_sqrtab s) 0 = sqrt (1 - beta1).
Proof.
  intros Hb HT s.
  assert (Hlen : (0 < Z.to_nat (T + 1))%nat) by lia.
  assert (Hpos := alpha_t_positive beta1 beta2 T Hb HT).
  assert (Hlen' : (0 < length (alpha_t (beta_t beta1 beta2 T (steps T))))%nat).
  { unfold alpha_t. now rewrite length_map, beta_t_length. }
  assert (H0 : nth 0 (s_alphabar_t s) 0 = 1 - beta1).
  { unfold s, schedule_of. cbn [s_alphabar_t].
    rewrite alphabar_t_cumprod by assumption.
    unfold cumprod_upto, alpha_t.
    pose proof (beta_t_nth beta1 beta2 T 0 Hlen) as Hb0.
    pose proof (beta_t_length beta1 beta2 T) as Hbl.
    destruct (beta_t beta1 beta2 T (steps T)) as [|b0 bs]; [simpl in Hbl; lia|].
    simpl in Hb0 |- *. rewrite Hb0. unfold Rdiv. ring. }
  split; [exact H0|].
  unfold s, schedule_of, sqrtab. cbn [s_sqrtab].
  rewrite (nth_map_lt _ _ _ _ 0) by (rewrite alphabar_t_length; exact Hlen').
  f_equal. exact H0.
Qed.

(** C1 (as amended): for valid inputs the schedule is produced, and its
    entries of index 0 are [alpha[0] = 1 - beta_min],
    [alpha_bar[0] = 1 - beta_min] and
    [sqrt_alpha_bar[0] = sqrt (1 - beta_min)]: the cumulative product
    starts with the factor of step 0, not with 1. *)
Theorem alpha_bar_step_zero (beta_min beta_max : R) (step_count : Z) :
  0 < beta_min < beta_max /\ beta_max < 1 -> (1 <= step_count)%Z ->
  exists s, ddpm_schedules beta_min beta_max step_count = Return s /\
    nth 0 (s_alpha_t s) 0 = 1 - beta_min /\
    nth 0 (s_alphabar_t s) 0 = 1 - beta_min /\
    nth 0 (s_sqrtab s) 0 = sqrt (1 - beta_min).
Proof.
  intros [[H0 H1] H2] HT.
  exists (schedule_of (beta_t beta_min beta_max step_count (steps step_count))).
  split; [apply ddpm_schedules_valid; [lra | lia]|].
  destruct (schedule_step_zero beta_min beta_max step_count (conj H1 H2) HT) as [Ha Hs].
  split; [|split; assumption].
  unfold schedule_of, alpha_t. cbn [s_alpha_t].
  rewrite (nth_map_lt _ _ _ _ 0) by (rewrite beta_t_length; lia).
  rewrite beta_t_nth by lia. simpl. unfold Rdiv. ring.
Qed.

Lemma alpha_bar_step_zero_witness :
  exists s, ddpm_schedules (1 / 10000) (1 / 50) 400 = Return s /\
    nth 0 (s_alpha_t s) 0 = 1 - 1 / 10000 /\
    nth 0 (s_alphabar_t s) 0 = 1 - 1 / 10000 /\
    nth 0 (s_sqrtab s) 0 = sqrt (1 - 1 / 10000).
Proof.
  apply (alpha_bar_step_zero (1 / 10000) (1 / 50) 400); [lra | lia].
Defined.

(** C1 fails as stated: with the repository's own parameters
    ([betas = (1e-4, 0.02)], [n_T = 400]) the schedule has
    [alpha_bar[0] = 0.9999] and [sqrt_alpha_bar[0] = sqrt 0.9999], neither
    of which is 1. *)
Lemma default_schedule_starts_below_one :
  0 < 1 / 10000 < 1 / 50 /\ 1 / 50 < 1 /\ (1 <= 400)%Z /\
  exists s, ddpm_schedules (1 / 10000) (1 / 50) 400 = Return s /\
    nth 0 (s_alphabar_t s) 0 <> 1 /\ nth 0 (s_sqrtab s) 0 <> 1.
Proof.
  split; [lra|]. split; [lra|]. split; [lia|].
  exists (schedule_of (beta_t (1 / 10000) (1 / 50) 400 (steps 400))).
  split; [apply ddpm_schedules_valid; [lra | lia]|].
  destruct (schedule_step_zero (1 / 10000) (1 / 50) 400) as [Ha Hs]; [lra | lia |].
  rewrite Ha, Hs. split; [lra|].
  intros H. assert (Hlt : sqrt (1 - 1 / 10000) < sqrt 1) by (apply sqrt_lt_1; lra).
  rewrite sqrt_1 in Hlt. lra.
Qed.

(** C2 (as amended): for [beta_min > 0], [ddpm_schedules] fails with its
    assertion error exactly when [beta_min < beta_max < 1.0] is violated;
    [step_count] is not validated, and every input that satisfies the
    precondition (indeed every [step_count >= -1] with valid bounds)
    returns a schedule. *)
Theorem ddpm_schedules_raises (beta_min beta_max : R) (step_count : Z) :
  0 < beta_min ->
  (ddpm_schedules beta_min beta_max step_count = Raise (AssertionError assert_msg)
     <-> ~ (beta_min < beta_max < 1)) /\
  (beta_min < beta_max < 1 -> (-1 <= step_count)%Z ->
     exists s, ddpm_schedules beta_min beta_max step_count = Return s) /\
  ((0 < beta_min < beta_max /\ beta_max < 1) /\ (1 <= step_count)%Z ->
     exists s, ddpm_schedules beta_min beta_max step_count = Return s).
Proof.
  intros _. split; [split|split].
  - intros Hraise Hb.
    destruct (Z_lt_le_dec step_count (-1)) as [Hneg|Hpos].
    + rewrite (ddpm_schedules_negative_steps _ _ _ Hb Hneg) in Hraise. discriminate.
    + rewrite (ddpm_schedules_valid _ _ _ Hb Hpos) in Hraise. discriminate.
  - apply ddpm_schedules_assert.
  - intros Hb HT. eexists. apply ddpm_schedules_valid; assumption.
  - intros [[[_ Hb] Hb'] HT]. eexists. apply ddpm_schedules_valid; [lra | lia].
Qed.

Lemma ddpm_schedules_raises_witness :
  (ddpm_schedules (1 / 2) (1 / 4) 400 = Raise (AssertionError assert_msg)
     <-> ~ (1 / 2 < 1 / 4 < 1)) /\
  (1 / 2 < 1 / 4 < 1 -> (-1 <= 400)%Z ->
     exists s, ddpm_schedules (1 / 2) (1 / 4) 400 = Return s) /\
  ((0 < 1 / 2 < 1 / 4 /\ 1 / 4 < 1) /\ (1 <= 400)%Z ->
     exists s, ddpm_schedules (1 / 2) (1 / 4) 400 = Return s).
Proof.
  apply (ddpm_schedules_raises (1 / 2) (1 / 4) 400). lra.
Defined.

(** C2 fails as stated: [step_count = 0] violates [step_count >= 1], yet
    with valid bounds [ddpm_schedules] returns a schedule and raises
    nothing. *)
Lemma ddpm_schedules_step_count_zero :
  0 < 1 / 10000 < 1 / 50 /\ 1 / 50 < 1 /\ ~ (1 <= 0)%Z /\
  exists s, ddpm_schedules (1 / 10000) (1 / 50) 0 = Return s.
Proof.
  split; [lra|]. split; [lra|]. split; [lia|].
  eexists. apply ddpm_schedules_valid; [lra | lia].
Qed.

(** The lower bound of the assertion's message is not checked either:
    a non-positive [beta1] passes the assertion. *)
Lemma ddpm_schedules_nonpositive_beta1 :
  exists s, ddpm_schedules (- 1 / 2) (1 / 2) 400 = Return s.
Proof.
  eexists. apply ddpm_schedules_valid; [lra | lia].
Qed.

(** C7: for valid inputs, [beta] is built from [arange(0, step_count + 1)],
    has [step_count + 1] entries, entry [t] being
    [beta_min + (beta_max - beta_min) * t / step_count]; the first is
    [beta_min] and the last [beta_max]. *)
Theorem beta_linear (beta_min beta_max : R) (step_count : Z) :
  0 < beta_min < beta_max /\ beta_max < 1 -> (1 <= step_count)%Z ->
  exists ar,
    arange 0 (step_count + 1) = Return ar /\
    ddpm_schedules beta_min beta_max step_count =
      Return (schedule_of (beta_t beta_min beta_max step_count ar)) /\
    let beta := beta_t beta_min beta_max step_count ar in
    Z.of_nat (length beta) = (step_count + 1)%Z /\
    (forall t, (0 <= t <= step_count)%Z ->
       nth (Z.to_nat t) beta 0 =
       beta_min + (beta_max - beta_min) * IZR t / IZR step_count) /\
    nth 0 beta 0 = beta_min /\
    nth (Z.to_nat step_count) beta 0 = beta_max.
Proof.
  intros [[H0 H1] H2] HT. exists (steps step_count).
  split; [apply arange_steps; lia|].
  split; [apply ddpm_schedules_valid; [lra | lia]|].
  assert (HTR : 0 < IZR step_count) by (apply IZR_lt; lia).
  assert (Hnth : forall t, (0 <= t <= step_count)%Z ->
     nth (Z.to_nat t) (beta_t beta_min beta_max step_count (steps step_count)) 0 =
     beta_min + (beta_max - beta_min) * IZR t / IZR step_count).
  { intros t Ht. rewrite beta_t_nth by lia.
    rewrite INR_IZR_INZ, Z2Nat.id by lia. ring. }
  cbv zeta. split; [rewrite beta_t_length; lia|].
  split; [exact Hnth|]. split.
  - change 0%nat with (Z.to_nat 0). rewrite (Hnth 0%Z) by lia. unfold Rdiv. ring.
  - rewrite (Hnth step_count) by lia. field. lra.
Qed.

Lemma beta_linear_witness :
  exists ar,
    arange 0 (400 + 1) = Return ar /\
    ddpm_schedules (1 / 10000) (1 / 50) 400 =
      Return (schedule_of (beta_t (1 / 10000) (1 / 50) 400 ar)) /\
    let beta := beta_t (1 / 10000) (1 / 50) 400 ar in
    Z.of_nat (length beta) = (400 + 1)%Z /\
    (forall t, (0 <= t <= 400)%Z ->
       nth (Z.to_nat t) beta 0 =
       1 / 10000 + (1 / 50 - 1 / 10000) * IZR t / IZR 400) /\
    nth 0 beta 0 = 1 / 10000 /\
    nth (Z.to_nat 400) beta 0 = 1 / 50.
Proof.
  apply (beta_linear (1 / 10000) (1 / 50) 400); [lra | lia].
Defined.

(** C8: for valid inputs and every [t] in [[0, step_count]], the entry
    [alpha_bar[t]] that the schedule computes as
    [exp(cumsum(log(alpha)))[t]] equals the direct product
    [alpha[0] * ... * alpha[t]]; every [alpha[t]] lies in (0, 1). *)
Theorem alpha_bar_is_cumprod (beta_min beta_max : R) (step_count : Z) :
  0 < beta_min < beta_max /\ beta_max < 1 -> (1 <= step_count)%Z ->
  exists s, ddpm_schedules beta_min beta_max step_count = Return s /\
    s_alphabar_t s = map exp (cumsum (map ln (s_alpha_t s))) /\
    Z.of_nat (length (s_alphabar_t s)) = (step_count + 1)%Z /\
    forall t, (0 <= t <= step_count)%Z ->
      0 < nth (Z.to_nat t) (s_alpha_t s) 0 < 1 /\
      nth (Z.to_nat t) (s_alphabar_t s) 0 = cumprod_upto (s_alpha_t s) (Z.to_nat t).
Proof.
  intros [[H0 H1] H2] HT.
  exists (schedule_of (beta_t beta_min beta_max step_count (steps step_count))).
  split; [apply ddpm_schedules_valid; [lra | lia]|].
  unfold schedule_of. cbn [s_alphabar_t s_alpha_t].
  split; [reflexivity|].
  assert (Hal : length (alpha_t (beta_t beta_min beta_max step_count (steps step_count)))
                = Z.to_nat (step_count + 1)).
  { unfold alpha_t. now rewrite length_map, beta_t_length. }
  split; [rewrite alphabar_t_length, Hal; lia|].
  intros t Ht. split.
  - unfold alpha_t.
    rewrite (nth_map_lt _ _ _ _ 0) by (rewrite beta_t_length; lia).
    pose proof (beta_t_bounds beta_min beta_max step_count (Z.to_nat t) H1 HT).
    lapply H; [lra | lia].
  - apply alphabar_t_cumprod.
    + apply alpha_t_positive; [split; assumption | exact HT].
    + rewrite Hal. lia.
Qed.

Lemma alpha_bar_is_cumprod_witness :
  exists s, ddpm_schedules (1 / 10000) (1 / 50) 400 = Return s /\
    s_alphabar_t s = map exp (cumsum (map ln (s_alpha_t s))) /\
    Z.of_nat (length (s_alphabar_t s)) = (400 + 1)%Z /\
    forall t, (0 <= t <= 400)%Z ->
      0 < nth (Z.to_nat t) (s_alpha_t s) 0 < 1 /\
      nth (Z.to_nat t) (s_alphabar_t s) 0 = cumprod_upto (s_alpha_t s) (Z.to_nat t).
Proof.
  apply (alpha_bar_is_cumprod (1 / 10000) (1 / 50) 400); [lra | lia].
Defined.

(** ** Broadcasting *)

Lemma bdim_same (d : nat) : bdim d d = Some d.
Proof. unfold bdim. now rewrite Nat.eqb_refl. Qed.

Lemma bdim_one_l (d : nat) : bdim 1 d = Some d.
Proof.
  unfold bdim. destruct (Nat.eqb_spec 1 d) as [->|_]; reflexivity.
Qed.

Lemma bshape_rev_same (l : list nat) : bshape_rev l l = Some l.
Proof.
  induction l as [|d l IH]; simpl; [reflexivity|].
  now rewrite bdim_same, IH.
Qed.

Lemma bshape_rev_nil_r (l : list nat) : bshape_rev l [] = Some l.
Proof. destruct l; reflexivity. Qed.

Lemma broadcast_same (s : list nat) : broadcast_shapes s s = Some s.
Proof.
  unfold broadcast_shapes. rewrite bshape_rev_same. simpl. now rewrite rev_involutive.
Qed.

Lemma broadcast_scalar_r (s : list nat) : broadcast_shapes s [] = Some s.
Proof.
  unfold broadcast_shapes. simpl rev at 2. rewrite bshape_rev_nil_r. simpl.
  now rewrite rev_involutive.
Qed.

Lemma broadcast_scalar_l (s : list nat) : broadcast_shapes [] s = Some s.
Proof.
  unfold broadcast_shapes. simpl. now rewrite rev_involutive.
Qed.

(** A per-example coefficient of shape (B, 1, 1, 1) against a batch of
    shape (B, C, H, W). *)
Lemma broadcast_per_example (B C H W : nat) :
  broadcast_shapes [B; 1; 1; 1]%nat [B; C; H; W] = Some [B; C; H; W].
Proof.
  unfold broadcast_shapes. simpl.
  now rewrite !bdim_one_l, bdim_same.
Qed.

Lemma bidx_scalar (idx : list nat) : bidx [] idx = [].
Proof. reflexivity. Qed.

Lemma map2_bidx_valid (sh idx : list nat) :
  Forall2 lt idx sh ->
  map2 (fun d i => if (d =? 1)%nat then 0%nat else i) sh idx = idx.
Proof.
  induction 1 as [|i d idx sh Hid _ IH]; simpl; [reflexivity|].
  rewrite IH. destruct (Nat.eqb_spec d 1); [f_equal; lia | reflexivity].
Qed.

Lemma bidx_valid (sh idx : list nat) : valid_idx sh idx -> bidx sh idx = idx.
Proof.
  intros H. unfold bidx.
  rewrite (Forall2_length H), Nat.sub_diag. simpl.
  now apply map2_bidx_valid.
Qed.

Lemma bidx_per_example (B b c h w : nat) :
  (b < B)%nat -> bidx [B; 1; 1; 1]%nat [b; c; h; w] = [b; 0; 0; 0]%nat.
Proof.
  intros Hb. unfold bidx. simpl.
  destruct (Nat.eqb_spec B 1); [f_equal; lia | reflexivity].
Qed.

Lemma tensor_op_ok (f : R -> R -> R) (a b : tensor) (s : list nat) :
  broadcast_shapes (shape a) (shape b) = Some s ->
  tensor_op f a b =
  Return {| shape := s;
            elem := fun idx => f (elem a (bidx (shape a) idx)) (elem b (bidx (shape b) idx)) |}.
Proof. intros H. unfold tensor_op. now rewrite H. Qed.

Lemma tensor_op_raise (f : R -> R -> R) (a b : tensor) :
  broadcast_shapes (shape a) (shape b) = None -> tensor_op f a b = Raise RuntimeError.
Proof. intros H. unfold tensor_op. now rewrite H. Qed.

(** ** Indexing the buffers *)

Lemma pyindex_in_range (len : nat) (i : Z) :
  (0 <= i < Z.of_nat len)%Z -> pyindex len i = Some (Z.to_nat i).
Proof.
  intros H. unfold pyindex.
  destruct (Z.leb_spec 0 i); [|lia].
  destruct (Z.ltb_spec i (Z.of_nat len)); [reflexivity | lia].
Qed.

Lemma getitem_in_range (buf : list R) (i : Z) :
  (0 <= i < Z.of_nat (length buf))%Z ->
  getitem buf i = Return (scalar (nth (Z.to_nat i) buf 0)).
Proof. intros H. unfold getitem. now rewrite pyindex_in_range. Qed.

Lemma getitem_ts_in_range (buf : list R) (ts : list Z) :
  Forall (fun v => (0 <= v < Z.of_nat (length buf))%Z) ts ->
  getitem_ts buf ts =
  Return {| shape := [length ts; 1; 1; 1]%nat;
            elem := fun idx =>
              match pyindex (length buf) (nth (hd 0%nat idx) ts 0%Z) with
              | Some k => nth k buf 0
              | None => 0
              end |}.
Proof.
  intros H. unfold getitem_ts.
  replace (forallb _ ts) with true; [reflexivity|].
  symmetry. apply forallb_forall. intros v Hv.
  rewrite Forall_forall in H. now rewrite pyindex_in_range by auto.
Qed.

(** ** The object built by the constructor *)

Lemma ddpm_schedules_inv (beta1 beta2 : R) (T : Z) (s : schedule) :
  ddpm_schedules beta1 beta2 T = Return s ->
  beta1 < beta2 < 1 /\ (-1 <= T)%Z /\ s = schedule_of (beta_t beta1 beta2 T (steps T)).
Proof.
  unfold ddpm_schedules. intros H.
  destruct (Rlt_dec beta1 beta2); [|discriminate].
  destruct (Rlt_dec beta2 1); [|discriminate].
  unfold arange in H. destruct (Z.ltb_spec (T + 1) 0); [discriminate|].
  simpl in H. injection H as <-. repeat split; (assumption || lia || reflexivity).
Qed.

Lemma schedule_of_lengths (beta : list R) :
  let s := schedule_of beta in
  length (s_alpha_t s) = length beta /\
  length (s_oneover_sqrta s) = length beta /\
  length (s_sqrt_beta_t s) = length beta /\
  length (s_alphabar_t s) = length beta /\
  length (s_sqrtab s) = length beta /\
  length (s_sqrtmab s) = length beta /\
  length (s_mab_over_sqrtmab s) = length beta.
Proof.
  unfold schedule_of. cbn [s_alpha_t s_oneover_sqrta s_sqrt_beta_t s_alphabar_t
    s_sqrtab s_sqrtmab s_mab_over_sqrtmab].
  assert (Ha : length (alpha_t beta) = length beta) by (unfold alpha_t; apply length_map).
  assert (Hab : length (alphabar_t (log_alpha_t (alpha_t beta))) = length beta)
    by (now rewrite alphabar_t_length).
  assert (Hm : length (sqrtmab (alphabar_t (log_alpha_t (alpha_t beta)))) = length beta)
    by (unfold sqrtmab; now rewrite length_map).
  repeat split; try assumption.
  - unfold oneover_sqrta. now rewrite length_map.
  - unfold sqrt_beta_t. now rewrite length_map.
  - unfold sqrtab. now rewrite length_map.
  - unfold mab_over_sqrtmab_inv. rewrite map2_length; congruence.
Qed.

Lemma DDPM_init_inv (betas : R * R) (T : Z) (self : DDPM) :
  DDPM_init betas T = Return self ->
  n_T self = T /\ (-1 <= T)%Z /\
  buffers self = schedule_of (beta_t (fst betas) (snd betas) T (steps T)) /\
  length (s_oneover_sqrta (buffers self)) = Z.to_nat (T + 1) /\
  length (s_mab_over_sqrtmab (buffers self)) = Z.to_nat (T + 1) /\
  length (s_sqrt_beta_t (buffers self)) = Z.to_nat (T + 1) /\
  length (s_sqrtab (buffers self)) = Z.to_nat (T + 1) /\
  length (s_sqrtmab (buffers self)) = Z.to_nat (T + 1).
Proof.
  unfold DDPM_init. intros H.
  destruct (ddpm_schedules (fst betas) (snd betas) T) as [s|e] eqn:Hs; [|discriminate].
  simpl in H. injection H as <-. cbn [n_T buffers].
  destruct (ddpm_schedules_inv _ _ _ _ Hs) as (_ & HT & ->).
  pose proof (schedule_of_lengths (beta_t (fst betas) (snd betas) T (steps T))) as HL.
  cbv zeta in HL. rewrite beta_t_length in HL.
  destruct HL as (_ & H1 & H2 & _ & H4 & H5 & H6).
  repeat split; assumption || reflexivity.
Qed.

(** ** One iteration of the sampling loop *)

Lemma sample_step_calls (E : torch_rng) (model : denoiser) (self : DDPM)
    (n_sample : nat) (size : list nat) (x_i : tensor) (i : Z) (w : world E) :
  calls (snd (sample_step E model self n_sample size x_i i w)) =
  calls w ++ [(x_i, step_time self n_sample i)] /\
  gen (snd (sample_step E model self n_sample size x_i i w)) =
  step_gen E n_sample size i (gen w).
Proof.
  unfold sample_step, step_gen, step_time, bind, lift, call_model, randn, ret.
  destruct (1 <? i)%Z; cbn [gen calls];
    (destruct (model x_i _) as [eps|e]; [|split; reflexivity]);
    repeat match goal with
    | |- context [match ?o with Return _ => _ | Raise _ => _ end] =>
        destruct o; cbn [fst snd gen calls]
    | |- context [let (_, _) := ?p in _] => destruct p eqn:?; cbn [fst snd gen calls]
    end; split; reflexivity.
Qed.

Lemma sample_step_run (E : torch_rng) (model : denoiser) (self : DDPM)
    (n_sample : nat) (size : list nat) (x_i eps : tensor) (i : Z) (w : world E) :
  rng_ok E ->
  shape x_i = n_sample :: size ->
  model x_i (step_time self n_sample i) = Return eps ->
  shape eps = n_sample :: size ->
  (0 <= i < Z.of_nat (length (s_oneover_sqrta (buffers self))))%Z ->
  (0 <= i < Z.of_nat (length (s_mab_over_sqrtmab (buffers self))))%Z ->
  (0 <= i < Z.of_nat (length (s_sqrt_beta_t (buffers self))))%Z ->
  exists x',
    sample_step E model self n_sample size x_i i w =
      (Return x', {| gen := step_gen E n_sample size i (gen w);
                     calls := calls w ++ [(x_i, step_time self n_sample i)] |}) /\
    shape x' = n_sample :: size /\
    forall idx, valid_idx (n_sample :: size) idx ->
      elem x' idx =
      nth (Z.to_nat i) (s_oneover_sqrta (buffers self)) 0 *
        (elem x_i idx - elem eps idx * nth (Z.to_nat i) (s_mab_over_sqrtmab (buffers self)) 0)
      + nth (Z.to_nat i) (s_sqrt_beta_t (buffers self)) 0 *
        elem (step_noise E n_sample size i (gen w)) idx.
Proof.
  intros [_ Hrandn] Hx Hm Heps H1 H2 H3.
  unfold sample_step, step_gen, step_noise, bind, lift, call_model, randn, ret.
  fold (step_time self n_sample i).
  assert (Hz : shape (fst (randn_gen E (n_sample :: size) (gen w))) = n_sample :: size)
    by apply Hrandn.
  unfold slice0. rewrite Hx, Nat.min_id.
  rewrite !getitem_in_range by assumption.
  unfold tmul, tsub, tadd.
  destruct (1 <? i)%Z; cbn [gen calls]; rewrite Hm.
  - rewrite (tensor_op_ok _ eps _ (n_sample :: size))
      by (rewrite Heps; apply broadcast_scalar_r).
    rewrite (tensor_op_ok Rminus _ _ (n_sample :: size)) by apply broadcast_same.
    rewrite (tensor_op_ok Rmult (scalar _) _ (n_sample :: size))
      by apply broadcast_scalar_l.
    rewrite (tensor_op_ok Rmult (scalar _) (fst _) (n_sample :: size))
      by (rewrite Hz; apply broadcast_scalar_l).
    rewrite (tensor_op_ok Rplus _ _ (n_sample :: size)) by apply broadcast_same.
    eexists. split; [reflexivity|]. split; [reflexivity|].
    intros idx Hidx. cbn [shape elem scalar].
    rewrite Heps, Hz, !(bidx_valid _ _ Hidx). reflexivity.
  - rewrite (tensor_op_ok _ eps _ (n_sample :: size))
      by (rewrite Heps; apply broadcast_scalar_r).
    rewrite (tensor_op_ok Rminus _ _ (n_sample :: size)) by apply broadcast_same.
    rewrite (tensor_op_ok Rmult (scalar _) _ (n_sample :: size))
      by apply broadcast_scalar_l.
    rewrite (tensor_op_ok Rmult (scalar _) (scalar 0) []) by reflexivity.
    rewrite (tensor_op_ok Rplus _ _ (n_sample :: size)) by apply broadcast_scalar_r.
    eexists. split; [reflexivity|]. split; [reflexivity|].
    intros idx Hidx. cbn [shape elem scalar].
    rewrite Heps, !(bidx_valid _ _ Hidx). reflexivity.
Qed.

(** ** The sampling loop *)

Lemma range_desc_length (start stop : Z) :
  length (range_desc start stop) = Z.to_nat (start - stop).
Proof. unfold range_desc. now rewrite length_map, length_seq. Qed.

Lemma range_desc_nth (start stop : Z) (k : nat) :
  (k < Z.to_nat (start - stop))%nat ->
  nth k (range_desc start stop) 0%Z = (start - Z.of_nat k)%Z.
Proof.
  intros H. unfold range_desc.
  rewrite (nth_map_lt _ _ _ _ 0%nat) by (now rewrite length_seq).
  now rewrite seq_nth.
Qed.

Lemma range_desc_In (start stop i : Z) :
  In i (range_desc start stop) -> (stop < i <= start)%Z.
Proof.
  unfold range_desc. rewrite in_map_iff. intros [k [<- Hk]].
  apply in_seq in Hk. lia.
Qed.

(** The last value of [range(n_T, 0, -1)] is 1. *)
Lemma range_desc_last (T : Z) :
  (1 <= T)%Z -> range_desc T 0 = range_desc T 1 ++ [1%Z].
Proof.
  intros HT. unfold range_desc.
  replace (Z.to_nat (T - 0)) with (S (Z.to_nat (T - 1))) by lia.
  rewrite seq_S, map_app. simpl. do 2 f_equal. lia.
Qed.

Lemma for_each_app {E : torch_rng} {A S : Type} (body : S -> A -> M E S)
    (l1 l2 : list A) (s : S) (w : world E) :
  for_each body (l1 ++ l2) s w = bind (for_each body l1 s) (for_each body l2) w.
Proof.
  revert s w. induction l1 as [|a l1 IH]; intros s w; simpl.
  - reflexivity.
  - unfold bind. destruct (body s a w) as [[s'|e] w']; [|reflexivity].
    rewrite IH. reflexivity.
Qed.

(** Whatever the denoiser does, the loop calls it with the timestep of
    the current iteration, on the current state. *)
Lemma sample_loop_calls (E : torch_rng) (model : denoiser) (self : DDPM)
    (n_sample : nat) (size : list nat) (l : list Z) (x : tensor) (w : world E) :
  exists trace,
    calls (snd (for_each (sample_step E model self n_sample size) l x w)) =
      calls w ++ trace /\
    Forall (fun c => exists i, In i l /\ snd c = step_time self n_sample i) trace.
Proof.
  revert x w. induction l as [|i l IH]; intros x w.
  - exists []. simpl. now rewrite app_nil_r.
  - destruct (sample_step_calls E model self n_sample size x i w) as [Hc _].
    simpl. unfold bind.
    destruct (sample_step E model self n_sample size x i w) as [[x'|e] w1]; cbn [snd] in Hc.
    + destruct (IH x' w1) as [trace [Ht Hall]].
      exists ((x, step_time self n_sample i) :: trace). split.
      * rewrite Ht, Hc, <- app_assoc. reflexivity.
      * constructor; [exists i; simpl; auto|].
        eapply Forall_impl; [|exact Hall].
        intros c [j [Hj Hs]]. exists j. simpl. auto.
    + exists [(x, step_time self n_sample i)]. cbn [snd]. split; [exact Hc|].
      constructor; [exists i; simpl; auto | constructor].
Qed.

(** With a denoiser that honours its interface the loop runs through
    the whole list: one call per element, in order, each on a batch of
    shape (n_sample, *size). *)
Lemma sample_loop_run (E : torch_rng) (model : denoiser) (self : DDPM)
    (n_sample : nat) (size : list nat) (len : nat) :
  rng_ok E -> shape_preserving model ->
  length (s_oneover_sqrta (buffers self)) = len ->
  length (s_mab_over_sqrtmab (buffers self)) = len ->
  length (s_sqrt_beta_t (buffers self)) = len ->
  forall l, Forall (fun i => (0 <= i < Z.of_nat len)%Z) l ->
  forall x w, shape x = n_sample :: size ->
  exists x' w' trace,
    for_each (sample_step E model self n_sample size) l x w = (Return x', w') /\
    shape x' = n_sample :: size /\
    calls w' = calls w ++ trace /\
    Forall2 (fun i c => snd c = step_time self n_sample i /\
                        shape (fst c) = n_sample :: size) l trace.
Proof.
  intros Hrng Hmodel L1 L2 L3 l Hl.
  induction Hl as [|i l Hi _ IH]; intros x w Hx.
  - exists x, w, []. simpl. unfold ret. rewrite app_nil_r.
    split; [reflexivity|]. split; [exact Hx|]. split; [reflexivity | constructor].
  - destruct (Hmodel x (step_time self n_sample i)) as [eps [He Hes]].
    destruct (sample_step_run E model self n_sample size x eps i w Hrng Hx He)
      as [x1 [Hrun [Hx1 _]]]; try (rewrite Hes; exact Hx); try lia.
    destruct (IH x1 (mkWorld (step_gen E n_sample size i (gen w))
                             (calls w ++ [(x, step_time self n_sample i)])) Hx1)
      as [x' [w' [trace [Hloop [Hx' [Hc HF]]]]]].
    exists x', w', ((x, step_time self n_sample i) :: trace).
    split; [|split; [exact Hx'|split]].
    + simpl. unfold bind. rewrite Hrun. exact Hloop.
    + rewrite Hc. cbn [calls]. now rewrite <- app_assoc.
    + constructor; [split; [reflexivity | exact Hx] | exact HF].
Qed.

(** The entries of the buffers, as the data model defines them. *)
Lemma schedule_of_entries (beta : list R) (t : nat) :
  (t < length beta)%nat ->
  let s := schedule_of beta in
  nth t (s_alpha_t s) 0 = 1 - nth t beta 0 /\
  nth t (s_sqrt_beta_t s) 0 = sqrt (nth t beta 0) /\
  nth t (s_oneover_sqrta s) 0 = 1 / sqrt (nth t (s_alpha_t s) 0) /\
  nth t (s_sqrtab s) 0 = sqrt (nth t (s_alphabar_t s) 0) /\
  nth t (s_sqrtmab s) 0 = sqrt (1 - nth t (s_alphabar_t s) 0) /\
  nth t (s_mab_over_sqrtmab s) 0 =
    (1 - nth t (s_alpha_t s) 0) / nth t (s_sqrtmab s) 0.
Proof.
  intros Ht s.
  destruct (schedule_of_lengths beta) as (La & _ & _ & Lab & _ & Lm & _).
  fold s in La, Lab, Lm.
  unfold s, schedule_of in *.
  cbn [s_alpha_t s_oneover_sqrta s_sqrt_beta_t s_alphabar_t s_sqrtab s_sqrtmab
       s_mab_over_sqrtmab] in *.
  repeat split.
  - unfold alpha_t. now rewrite (nth_map_lt _ _ _ _ 0).
  - unfold sqrt_beta_t. now rewrite (nth_map_lt _ _ _ _ 0).
  - unfold oneover_sqrta. now rewrite (nth_map_lt _ _ _ _ 0) by lia.
  - unfold sqrtab. now rewrite (nth_map_lt _ _ _ _ 0) by lia.
  - unfold sqrtmab. now rewrite (nth_map_lt _ _ _ _ 0) by lia.
  - unfold mab_over_sqrtmab_inv. now rewrite (map2_nth _ _ _ _ _ 0 0) by lia.
Qed.

(** ** The stand-ins honour the contracts *)

Lemma stub_rng_ok : rng_ok stub_rng.
Proof.
  split.
  - intros lo hi n g H. cbn [stub_rng randint_gen fst]. split.
    + apply repeat_length.
    + apply Forall_forall. intros v Hv. apply repeat_spec in Hv. lia.
  - intros sh g. reflexivity.
Qed.

Lemma zero_denoiser_ok : shape_preserving zero_denoiser.
Proof. intros x t. eexists. split; reflexivity. Qed.

Lemma default_ddpm_init (T : Z) :
  (-1 <= T)%Z -> DDPM_init (1 / 10000, 1 / 50) T = Return (default_ddpm T).
Proof.
  intros HT. unfold DDPM_init. cbn [fst snd].
  rewrite ddpm_schedules_valid by (lra || lia). reflexivity.
Qed.

(** ** Reverse sampling *)

(** C4: with a denoiser that honours its interface, [sample] returns,
    and it calls the denoiser exactly [step_count] times: call [k] is
    made at the loop value [i = step_count - k], so at [step_count],
    [step_count - 1], ..., 1 in this order, each on a batch of shape
    (n, *size) with the timestep tensor of shape (n, 1, 1, 1); the value
    returned is the state after the update of [i = 1]. *)
Theorem sample_denoiser_calls (E : torch_rng) (model : denoiser) (betas : R * R)
    (step_count : Z) (self : DDPM) (n : nat) (size : list nat) (w : world E) :
  rng_ok E -> shape_preserving model ->
  DDPM_init betas step_count = Return self -> (1 <= step_count)%Z ->
  exists x w' trace,
    sample E model self n size w = (Return x, w') /\
    calls w' = calls w ++ trace /\
    Z.of_nat (length trace) = step_count /\
    Forall2 (fun i c => snd c = full [n; 1; 1; 1]%nat (IZR i / IZR step_count) /\
                        shape (fst c) = n :: size)
            (range_desc step_count 0) trace /\
    (forall k, (k < length trace)%nat ->
       nth k (range_desc step_count 0) 0%Z = (step_count - Z.of_nat k)%Z) /\
    exists x1 w1,
      bind (randn E (n :: size))
           (for_each (sample_step E model self n size) (range_desc step_count 1)) w
        = (Return x1, w1) /\
      sample_step E model self n size x1 1 w1 = (Return x, w').
Proof.
  intros Hrng Hmodel Hinit HT.
  destruct (DDPM_init_inv _ _ _ Hinit) as (HnT & _ & _ & L1 & L2 & L3 & _).
  assert (Hin : Forall (fun i => (0 <= i < Z.of_nat (Z.to_nat (step_count + 1)))%Z)
                       (range_desc step_count 0)).
  { apply Forall_forall. intros i Hi. apply range_desc_In in Hi. lia. }
  set (x0 := fst (randn_gen E (n :: size) (gen w))).
  set (w0 := mkWorld (snd (randn_gen E (n :: size) (gen w))) (calls w)).
  assert (Hx0 : shape x0 = n :: size) by apply Hrng.
  destruct (sample_loop_run E model self n size _ Hrng Hmodel L1 L2 L3 _ Hin x0 w0 Hx0)
    as [x [w' [trace [Hloop [Hx [Hc HF]]]]]].
  assert (Hlen : length trace = Z.to_nat step_count).
  { rewrite <- (Forall2_length HF), range_desc_length. f_equal. lia. }
  exists x, w', trace.
  split; [|split; [|split; [|split; [|split]]]].
  - unfold sample, bind, randn. rewrite HnT. exact Hloop.
  - exact Hc.
  - rewrite Hlen. lia.
  - eapply Forall2_impl; [|exact HF]. intros i c [H1 H2].
    unfold step_time in H1. rewrite HnT in H1. now split.
  - intros k Hk. apply range_desc_nth. lia.
  - rewrite range_desc_last, for_each_app in Hloop by exact HT.
    unfold bind in Hloop. unfold bind, randn. fold x0. fold w0.
    destruct (for_each (sample_step E model self n size) (range_desc step_count 1) x0 w0)
      as [[x1|e] w1]; [|discriminate].
    exists x1, w1. split; [reflexivity|].
    simpl in Hloop. unfold bind, ret in Hloop.
    destruct (sample_step E model self n size x1 1 w1) as [[x2|e] w2];
      [|discriminate].
    exact Hloop.
Qed.

Lemma sample_denoiser_calls_witness :
  exists x w' trace,
    sample stub_rng zero_denoiser (default_ddpm 3) 2 [1; 2; 2]%nat world0 = (Return x, w') /\
    calls w' = calls world0 ++ trace /\
    Z.of_nat (length trace) = 3%Z /\
    Forall2 (fun i c => snd c = full [2; 1; 1; 1]%nat (IZR i / IZR 3) /\
                        shape (fst c) = [2; 1; 2; 2]%nat)
            (range_desc 3 0) trace /\
    (forall k, (k < length trace)%nat ->
       nth k (range_desc 3 0) 0%Z = (3 - Z.of_nat k)%Z) /\
    exists x1 w1,
      bind (randn stub_rng [2; 1; 2; 2]%nat)
           (for_each (sample_step stub_rng zero_denoiser (default_ddpm 3) 2 [1; 2; 2]%nat)
                     (range_desc 3 1)) world0
        = (Return x1, w1) /\
      sample_step stub_rng zero_denoiser (default_ddpm 3) 2 [1; 2; 2]%nat x1 1 w1
        = (Return x, w').
Proof.
  apply (sample_denoiser_calls stub_rng zero_denoiser (1 / 10000, 1 / 50) 3
           (default_ddpm 3) 2 [1; 2; 2]%nat world0).
  - exact stub_rng_ok.
  - exact zero_denoiser_ok.
  - apply default_ddpm_init. lia.
  - lia.
Defined.

(** C5: in iteration [i] of the loop of [sample] (1 <= i <= step_count),
    on a state [x_i] of shape (n, *size) for which the denoiser returns
    [eps] of the same shape at the timestep [i / step_count]: the noise
    [z] is a fresh draw [randn(n, *size)] when [i > 1] (the generator
    advances) and the number 0 when [i = 1] (no draw); the denoiser is
    called once, on [x_i] and [i / step_count]; and the new state has
    shape (n, *size) and equals, entry by entry,
    [one_over_sqrt_alpha[i] * (x_i - eps * noise_coeff[i]) + sqrt_beta[i] * z],
    the coefficients being the entries of index [i] of the buffers. *)
Theorem sample_step_update (E : torch_rng) (model : denoiser) (betas : R * R)
    (step_count : Z) (self : DDPM) (n : nat) (size : list nat)
    (x_i eps : tensor) (i : Z) (w : world E) :
  rng_ok E ->
  DDPM_init betas step_count = Return self ->
  (1 <= i <= step_count)%Z ->
  shape x_i = n :: size ->
  model x_i (full [n; 1; 1; 1]%nat (IZR i / IZR step_count)) = Return eps ->
  shape eps = n :: size ->
  let one_over_sqrt_alpha := nth (Z.to_nat i) (s_oneover_sqrta (buffers self)) 0 in
  let noise_coeff := nth (Z.to_nat i) (s_mab_over_sqrtmab (buffers self)) 0 in
  let sqrt_beta := nth (Z.to_nat i) (s_sqrt_beta_t (buffers self)) 0 in
  let alpha := nth (Z.to_nat i) (s_alpha_t (buffers self)) 0 in
  exists z g' x',
    sample_step E model self n size x_i i w =
      (Return x',
       {| gen := g';
          calls := calls w ++ [(x_i, full [n; 1; 1; 1]%nat (IZR i / IZR step_count))] |}) /\
    ((1 < i)%Z -> (z, g') = randn_gen E (n :: size) (gen w) /\ shape z = n :: size) /\
    (i = 1%Z -> z = scalar 0 /\ g' = gen w) /\
    shape x' = n :: size /\
    (forall idx, valid_idx (n :: size) idx ->
       elem x' idx =
         one_over_sqrt_alpha * (elem x_i idx - elem eps idx * noise_coeff)
         + sqrt_beta * elem z idx) /\
    (i = 1%Z -> forall idx, elem z idx = 0) /\
    one_over_sqrt_alpha = 1 / sqrt alpha /\
    noise_coeff = (1 - alpha) / nth (Z.to_nat i) (s_sqrtmab (buffers self)) 0 /\
    sqrt_beta = sqrt (1 - alpha).
Proof.
  intros Hrng Hinit Hi Hx Hm Heps c1 c2 c3 a.
  destruct (DDPM_init_inv _ _ _ Hinit) as (HnT & _ & Hb & L1 & L2 & L3 & _).
  assert (Hst : step_time self n i = full [n; 1; 1; 1]%nat (IZR i / IZR step_count)).
  { unfold step_time. now rewrite HnT. }
  rewrite <- Hst in Hm |- *.
  destruct (sample_step_run E model self n size x_i eps i w Hrng Hx Hm Heps)
    as [x' [Hrun [Hx' Hval]]]; try lia.
  exists (step_noise E n size i (gen w)), (step_gen E n size i (gen w)), x'.
  split; [exact Hrun|].
  unfold step_noise, step_gen.
  split; [|split; [|split; [exact Hx'|split; [exact Hval|split]]]].
  - intros H1. destruct (Z.ltb_spec 1 i); [|lia]. split.
    + now destruct (randn_gen E (n :: size) (gen w)).
    + apply Hrng.
  - intros ->. split; reflexivity.
  - intros ->. reflexivity.
  - assert (Ht : (Z.to_nat i < length (beta_t (fst betas) (snd betas) step_count
                                          (steps step_count)))%nat)
      by (rewrite beta_t_length; lia).
    destruct (schedule_of_entries _ _ Ht) as (E1 & E2 & E3 & _ & _ & E6).
    cbv zeta in E1, E2, E3, E6. rewrite <- Hb in E1, E2, E3, E6.
    unfold c1, c2, c3, a. split; [exact E3|]. split; [exact E6|].
    rewrite E2, E1. f_equal. ring.
Qed.

Lemma sample_step_update_witness :
  let self := default_ddpm 3 in
  let x_i := full [2; 1; 2; 2]%nat 1 in
  let eps := full [2; 1; 2; 2]%nat 0 in
  let one_over_sqrt_alpha := nth (Z.to_nat 2) (s_oneover_sqrta (buffers self)) 0 in
  let noise_coeff := nth (Z.to_nat 2) (s_mab_over_sqrtmab (buffers self)) 0 in
  let sqrt_beta := nth (Z.to_nat 2) (s_sqrt_beta_t (buffers self)) 0 in
  let alpha := nth (Z.to_nat 2) (s_alpha_t (buffers self)) 0 in
  exists z g' x',
    sample_step stub_rng zero_denoiser self 2 [1; 2; 2]%nat x_i 2 world0 =
      (Return x',
       {| gen := g';
          calls := calls world0 ++ [(x_i, full [2; 1; 1; 1]%nat (IZR 2 / IZR 3))] |}) /\
    ((1 < 2)%Z -> (z, g') = randn_gen stub_rng [2; 1; 2; 2]%nat (gen world0) /\
                  shape z = [2; 1; 2; 2]%nat) /\
    (2%Z = 1%Z -> z = scalar 0 /\ g' = gen world0) /\
    shape x' = [2; 1; 2; 2]%nat /\
    (forall idx, valid_idx [2; 1; 2; 2]%nat idx ->
       elem x' idx =
         one_over_sqrt_alpha * (elem x_i idx - elem eps idx * noise_coeff)
         + sqrt_beta * elem z idx) /\
    (2%Z = 1%Z -> forall idx, elem z idx = 0) /\
    one_over_sqrt_alpha = 1 / sqrt alpha /\
    noise_coeff = (1 - alpha) / nth (Z.to_nat 2) (s_sqrtmab (buffers self)) 0 /\
    sqrt_beta = sqrt (1 - alpha).
Proof.
  apply (sample_step_update stub_rng zero_denoiser (1 / 10000, 1 / 50) 3
           (default_ddpm 3) 2 [1; 2; 2]%nat
           (full [2; 1; 2; 2]%nat 1) (full [2; 1; 2; 2]%nat 0) 2 world0).
  - exact stub_rng_ok.
  - apply default_ddpm_init. lia.
  - lia.
  - reflexivity.
  - reflexivity.
  - reflexivity.
Defined.

(** C9: with [step_count = 1] and a denoiser that honours its interface,
    [sample] returns a tensor of shape (n, *size) for every [n] and
    [size].  The loop runs once, at [i = 1]: one call of the denoiser, at
    timestep [1 / 1]; the generator is advanced by the initial draw only,
    so no noise is injected; each of the three buffers read has length 2
    and its entry of index 1 is read without error. *)
Theorem sample_single_step (E : torch_rng) (model : denoiser) (betas : R * R)
    (self : DDPM) (n : nat) (size : list nat) (w : world E) :
  rng_ok E -> shape_preserving model ->
  DDPM_init betas 1 = Return self ->
  let x_T := fst (randn_gen E (n :: size) (gen w)) in
  let t_is := full [n; 1; 1; 1]%nat (1 / 1) in
  exists x eps,
    range_desc (n_T self) 0 = [1%Z] /\
    sample E model self n size w =
      (Return x, {| gen := snd (randn_gen E (n :: size) (gen w));
                    calls := calls w ++ [(x_T, t_is)] |}) /\
    shape x = n :: size /\
    model x_T t_is = Return eps /\
    (forall buf, In buf [s_oneover_sqrta (buffers self);
                         s_mab_over_sqrtmab (buffers self);
                         s_sqrt_beta_t (buffers self)] ->
       length buf = 2%nat /\ getitem buf 1 = Return (scalar (nth 1 buf 0))) /\
    (forall idx, valid_idx (n :: size) idx ->
       elem x idx =
         nth 1 (s_oneover_sqrta (buffers self)) 0 *
           (elem x_T idx - elem eps idx * nth 1 (s_mab_over_sqrtmab (buffers self)) 0)
         + nth 1 (s_sqrt_beta_t (buffers self)) 0 * 0).
Proof.
  intros Hrng Hmodel Hinit x_T t_is.
  destruct (DDPM_init_inv _ _ _ Hinit) as (HnT & _ & _ & L1 & L2 & L3 & _).
  change (Z.to_nat (1 + 1)) with 2%nat in L1, L2, L3.
  assert (Hx : shape x_T = n :: size) by apply Hrng.
  assert (Hst : step_time self n 1 = t_is) by (unfold step_time; now rewrite HnT).
  destruct (Hmodel x_T t_is) as [eps [He Hes]].
  pose (w0 := mkWorld (snd (randn_gen E (n :: size) (gen w))) (calls w)).
  destruct (sample_step_run E model self n size x_T eps 1 w0 Hrng Hx)
    as [x [Hrun [Hsx Hval]]];
    try (rewrite ?Hst, ?L1, ?L2, ?L3; (exact He || congruence || lia)).
  rewrite Hst in Hrun. cbn [gen calls w0 step_gen Z.ltb Z.compare Pos.compare] in Hrun.
  exists x, eps.
  split; [rewrite HnT; reflexivity|].
  split; [|split; [exact Hsx|split; [exact He|split]]].
  - unfold sample, bind, randn. rewrite HnT.
    change (range_desc 1 0) with [1%Z]. simpl for_each. unfold bind, ret.
    fold x_T. fold w0. rewrite Hrun. reflexivity.
  - intros buf Hbuf.
    assert (Hl : length buf = 2%nat).
    { simpl in Hbuf. destruct Hbuf as [<-|[<-|[<-|[]]]]; assumption. }
    split; [exact Hl|]. rewrite getitem_in_range by (rewrite Hl; lia). reflexivity.
  - intros idx Hidx. rewrite (Hval idx Hidx). reflexivity.
Qed.

Lemma sample_single_step_witness :
  let self := default_ddpm 1 in
  let x_T := fst (randn_gen stub_rng [2; 1; 2; 2]%nat (gen world0)) in
  let t_is := full [2; 1; 1; 1]%nat (1 / 1) in
  exists x eps,
    range_desc (n_T self) 0 = [1%Z] /\
    sample stub_rng zero_denoiser self 2 [1; 2; 2]%nat world0 =
      (Return x, {| gen := snd (randn_gen stub_rng [2; 1; 2; 2]%nat (gen world0));
                    calls := calls world0 ++ [(x_T, t_is)] |}) /\
    shape x = [2; 1; 2; 2]%nat /\
    zero_denoiser x_T t_is = Return eps /\
    (forall buf, In buf [s_oneover_sqrta (buffers self);
                         s_mab_over_sqrtmab (buffers self);
                         s_sqrt_beta_t (buffers self)] ->
       length buf = 2%nat /\ getitem buf 1 = Return (scalar (nth 1 buf 0))) /\
    (forall idx, valid_idx [2; 1; 2; 2]%nat idx ->
       elem x idx =
         nth 1 (s_oneover_sqrta (buffers self)) 0 *
           (elem x_T idx - elem eps idx * nth 1 (s_mab_over_sqrtmab (buffers self)) 0)
         + nth 1 (s_sqrt_beta_t (buffers self)) 0 * 0).
Proof.
  apply (sample_single_step stub_rng zero_denoiser (1 / 10000, 1 / 50)
           (default_ddpm 1) 2 [1; 2; 2]%nat world0).
  - exact stub_rng_ok.
  - exact zero_denoiser_ok.
  - apply default_ddpm_init. lia.
Defined.

(** ** Forward diffusion and the training loss *)

Lemma forward_run (E : torch_rng) (model : denoiser) (betas : R * R) (T : Z)
    (self : DDPM) (x : tensor) (B C H W : nat) (w : world E) :
  rng_ok E -> DDPM_init betas T = Return self -> (1 <= T)%Z ->
  shape x = [B; C; H; W] ->
  let ts := fst (randint_gen E 1 (T + 1) B (gen w)) in
  let g1 := snd (randint_gen E 1 (T + 1) B (gen w)) in
  let noise := fst (randn_gen E [B; C; H; W] g1) in
  let g2 := snd (randn_gen E [B; C; H; W] g1) in
  exists x_t,
    forward E model self x w =
      (obind (model x_t (ts_div ts T)) (mse_loss noise),
       mkWorld g2 (calls w ++ [(x_t, ts_div ts T)])) /\
    shape x_t = [B; C; H; W] /\
    forall b c h v, (b < B)%nat -> (c < C)%nat -> (h < H)%nat -> (v < W)%nat ->
      elem x_t [b; c; h; v] =
        nth (Z.to_nat (nth b ts 0%Z)) (s_sqrtab (buffers self)) 0 * elem x [b; c; h; v]
        + nth (Z.to_nat (nth b ts 0%Z)) (s_sqrtmab (buffers self)) 0 * elem noise [b; c; h; v].
Proof.
  intros [Hint Hrandn] Hinit HT Hx ts g1 noise g2.
  destruct (DDPM_init_inv _ _ _ Hinit) as (HnT & _ & _ & _ & _ & _ & L4 & L5).
  destruct (Hint 1%Z (T + 1)%Z B (gen w)) as [Hlen Hrange]; [lia|].
  fold ts in Hlen, Hrange.
  assert (Hnoise : shape noise = [B; C; H; W]) by apply Hrandn.
  assert (Hin : forall buf : list R, length buf = Z.to_nat (T + 1) ->
            Forall (fun v => (0 <= v < Z.of_nat (length buf))%Z) ts).
  { intros buf Hl. eapply Forall_impl; [|exact Hrange]. intros v Hv. cbv beta in Hv. lia. }
  assert (Hnth : forall b, (b < B)%nat -> (1 <= nth b ts 0 < T + 1)%Z).
  { intros b Hb. rewrite Forall_forall in Hrange. apply Hrange, nth_In. lia. }
  unfold forward, bind, lift, randint, randn, call_model, shape0.
  rewrite Hx, HnT. destruct (Z.ltb_spec 1 (T + 1)); [|lia].
  cbn [gen calls]. fold ts. fold g1. fold noise. fold g2.
  rewrite !getitem_ts_in_range by auto.
  unfold tmul, tadd. rewrite Hlen.
  rewrite (tensor_op_ok Rmult _ x [B; C; H; W])
    by (rewrite Hx; apply broadcast_per_example).
  rewrite (tensor_op_ok Rmult _ noise [B; C; H; W])
    by (rewrite Hnoise; apply broadcast_per_example).
  rewrite (tensor_op_ok Rplus _ _ [B; C; H; W]) by apply broadcast_same.
  match goal with |- context [model ?a ?b] => exists a end.
  split; [|split].
  - match goal with |- context [model ?a ?b] => destruct (model a b) end; reflexivity.
  - reflexivity.
  - intros b c h v Hb Hc Hh Hv. cbn [shape elem].
    assert (Hidx : valid_idx [B; C; H; W] [b; c; h; v])
      by (repeat constructor; assumption).
    rewrite Hx, Hnoise, !(bidx_valid _ _ Hidx), (bidx_per_example B b c h v Hb).
    cbn [hd]. specialize (Hnth b Hb).
    rewrite !pyindex_in_range by (rewrite ?L4, ?L5; lia). reflexivity.
Qed.

(** C6: for a clean batch [x0] of shape (B, C, H, W), [forward] draws the
    timesteps [t] with [randint(1, step_count + 1, (B,))], one per batch
    element and each in {1, ..., step_count}, then the noise with
    [randn_like(x0)], of the shape of [x0]; the noisy batch handed to the
    denoiser has shape (B, C, H, W) and entry (b, c, h, w) equals
    [sqrt_alpha_bar[t[b]] * x0[b,c,h,w] + sqrt_one_minus_alpha_bar[t[b]] * noise[b,c,h,w]]:
    the coefficient of example [b] is shared by all its channels, rows
    and columns.  [x0] is only read: the embedding has no operation that
    writes to a tensor. *)
Theorem forward_diffusion (E : torch_rng) (model : denoiser) (betas : R * R)
    (step_count : Z) (self : DDPM) (x0 : tensor) (B C H W : nat) (w : world E) :
  rng_ok E -> DDPM_init betas step_count = Return self -> (1 <= step_count)%Z ->
  shape x0 = [B; C; H; W] ->
  exists t g1 noise x_t w',
    snd (forward E model self x0 w) = w' /\
    (t, g1) = randint_gen E 1 (step_count + 1) B (gen w) /\
    (noise, gen w') = randn_gen E (shape x0) g1 /\
    length t = B /\
    Forall (fun v => (1 <= v <= step_count)%Z) t /\
    shape noise = shape x0 /\
    calls w' = calls w ++ [(x_t, ts_div t step_count)] /\
    shape x_t = [B; C; H; W] /\
    forall b c h v, (b < B)%nat -> (c < C)%nat -> (h < H)%nat -> (v < W)%nat ->
      let t_b := Z.to_nat (nth b t 0%Z) in
      let sqrt_alpha_bar := nth t_b (s_sqrtab (buffers self)) 0 in
      let sqrt_one_minus_alpha_bar := nth t_b (s_sqrtmab (buffers self)) 0 in
      elem x_t [b; c; h; v] =
        sqrt_alpha_bar * elem x0 [b; c; h; v]
        + sqrt_one_minus_alpha_bar * elem noise [b; c; h; v] /\
      sqrt_alpha_bar = sqrt (nth t_b (s_alphabar_t (buffers self)) 0) /\
      sqrt_one_minus_alpha_bar = sqrt (1 - nth t_b (s_alphabar_t (buffers self)) 0).
Proof.
  intros Hrng Hinit HT Hx.
  destruct (forward_run E model betas step_count self x0 B C H W w Hrng Hinit HT Hx)
    as [x_t [Hrun [Hxt Hval]]].
  destruct (DDPM_init_inv _ _ _ Hinit) as (_ & _ & Hb & _).
  destruct Hrng as [Hint Hrandn].
  destruct (Hint 1%Z (step_count + 1)%Z B (gen w)) as [Hlen Hrange]; [lia|].
  exists (fst (randint_gen E 1 (step_count + 1) B (gen w))),
         (snd (randint_gen E 1 (step_count + 1) B (gen w))),
         (fst (randn_gen E [B; C; H; W] (snd (randint_gen E 1 (step_count + 1) B (gen w))))),
         x_t, (snd (forward E model self x0 w)).
  rewrite Hrun. cbn [snd gen calls]. rewrite Hx.
  split; [reflexivity|]. split; [now destruct (randint_gen E 1 (step_count + 1) B (gen w))|].
  split; [now destruct (randn_gen E [B; C; H; W] _)|].
  split; [exact Hlen|]. split.
  { eapply Forall_impl; [|exact Hrange]. intros v Hv. cbv beta in Hv. lia. }
  split; [apply Hrandn|]. split; [reflexivity|]. split; [exact Hxt|].
  intros b c h v Hb' Hc Hh Hv. cbv zeta. split; [now apply Hval|].
  assert (Hin : (1 <= nth b (fst (randint_gen E 1 (step_count + 1) B (gen w))) 0
                 < step_count + 1)%Z).
  { rewrite Forall_forall in Hrange. apply Hrange, nth_In. lia. }
  assert (Ht : (Z.to_nat (nth b (fst (randint_gen E 1 (step_count + 1) B (gen w))) 0%Z)
                < length (beta_t (fst betas) (snd betas) step_count (steps step_count)))%nat)
    by (rewrite beta_t_length; lia).
  destruct (schedule_of_entries _ _ Ht) as (_ & _ & _ & E4 & E5 & _).
  cbv zeta in E4, E5. rewrite <- Hb in E4, E5. split; assumption.
Qed.

Lemma forward_diffusion_witness :
  let self := default_ddpm 3 in
  let x0 := full [2; 1; 2; 2]%nat 1 in
  exists t g1 noise x_t w',
    snd (forward stub_rng zero_denoiser self x0 world0) = w' /\
    (t, g1) = randint_gen stub_rng 1 (3 + 1) 2 (gen world0) /\
    (noise, gen w') = randn_gen stub_rng (shape x0) g1 /\
    length t = 2%nat /\
    Forall (fun v => (1 <= v <= 3)%Z) t /\
    shape noise = shape x0 /\
    calls w' = calls world0 ++ [(x_t, ts_div t 3)] /\
    shape x_t = [2; 1; 2; 2]%nat /\
    forall b c h v, (b < 2)%nat -> (c < 1)%nat -> (h < 2)%nat -> (v < 2)%nat ->
      let t_b := Z.to_nat (nth b t 0%Z) in
      let sqrt_alpha_bar := nth t_b (s_sqrtab (buffers self)) 0 in
      let sqrt_one_minus_alpha_bar := nth t_b (s_sqrtmab (buffers self)) 0 in
      elem x_t [b; c; h; v] =
        sqrt_alpha_bar * elem x0 [b; c; h; v]
        + sqrt_one_minus_alpha_bar * elem noise [b; c; h; v] /\
      sqrt_alpha_bar = sqrt (nth t_b (s_alphabar_t (buffers self)) 0) /\
      sqrt_one_minus_alpha_bar = sqrt (1 - nth t_b (s_alphabar_t (buffers self)) 0).
Proof.
  apply (forward_diffusion stub_rng zero_denoiser (1 / 10000, 1 / 50) 3
           (default_ddpm 3) (full [2; 1; 2; 2]%nat 1) 2 1 2 2 world0).
  - exact stub_rng_ok.
  - apply default_ddpm_init. lia.
  - lia.
  - reflexivity.
Defined.

Lemma mse_loss_ok (input target : tensor) (s : list nat) :
  broadcast_shapes (shape input) (shape target) = Some s ->
  mse_loss input target = Return (scalar (mean_sq_diff input target s)).
Proof.
  intros H. unfold mse_loss. rewrite (tensor_op_ok _ _ _ s H). reflexivity.
Qed.

Lemma mse_loss_raise (input target : tensor) :
  broadcast_shapes (shape input) (shape target) = None ->
  mse_loss input target = Raise RuntimeError.
Proof.
  intros H. unfold mse_loss. now rewrite (tensor_op_raise _ _ _ H).
Qed.

(** C3 (as amended): [forward] has no shape check of its own.  On a batch
    of shape (B, C, H, W) it calls the denoiser once and hands the noise
    and the prediction to the MSE loss: an exception of the denoiser
    propagates; a prediction whose shape cannot be broadcast against the
    noise raises torch's RuntimeError; a prediction whose shape can be
    broadcast, equal or not, yields the mean squared difference over
    the broadcast shape. *)
Theorem forward_loss_shapes (E : torch_rng) (model : denoiser) (betas : R * R)
    (step_count : Z) (self : DDPM) (x : tensor) (B C H W : nat) (w : world E) :
  rng_ok E -> DDPM_init betas step_count = Return self -> (1 <= step_count)%Z ->
  shape x = [B; C; H; W] ->
  exists noise x_t t w',
    shape noise = [B; C; H; W] /\
    shape x_t = [B; C; H; W] /\
    calls w' = calls w ++ [(x_t, t)] /\
    (forall e, model x_t t = Raise e ->
       forward E model self x w = (Raise e, w')) /\
    (forall pred, model x_t t = Return pred ->
       (broadcast_shapes (shape noise) (shape pred) = None ->
          forward E model self x w = (Raise RuntimeError, w')) /\
       (forall s, broadcast_shapes (shape noise) (shape pred) = Some s ->
          forward E model self x w = (Return (scalar (mean_sq_diff noise pred s)), w')) /\
       (shape pred = shape noise ->
          forward E model self x w =
            (Return (scalar (mean_sq_diff noise pred (shape noise))), w'))).
Proof.
  intros Hrng Hinit HT Hx.
  destruct (forward_run E model betas step_count self x B C H W w Hrng Hinit HT Hx)
    as [x_t [Hrun [Hxt _]]].
  exists (fst (randn_gen E [B; C; H; W] (snd (randint_gen E 1 (step_count + 1) B (gen w))))),
         x_t,
         (ts_div (fst (randint_gen E 1 (step_count + 1) B (gen w))) step_count),
         (snd (forward E model self x w)).
  rewrite Hrun. cbn [snd calls].
  split; [apply Hrng|]. split; [exact Hxt|]. split; [reflexivity|].
  split.
  - intros e He. rewrite He. reflexivity.
  - intros pred Hp. rewrite Hp. cbn [obind]. split; [|split].
    + intros Hn. now rewrite mse_loss_raise.
    + intros s Hs. now rewrite (mse_loss_ok _ _ s).
    + intros Hs. rewrite (mse_loss_ok _ _ (shape (fst (randn_gen E [B; C; H; W]
                   (snd (randint_gen E 1 (step_count + 1) B (gen w))))))).
      * reflexivity.
      * rewrite Hs. apply broadcast_same.
Qed.

Lemma forward_loss_shapes_witness :
  exists noise x_t t w',
    shape noise = [2; 1; 2; 2]%nat /\
    shape x_t = [2; 1; 2; 2]%nat /\
    calls w' = calls world0 ++ [(x_t, t)] /\
    (forall e, zero_denoiser x_t t = Raise e ->
       forward stub_rng zero_denoiser (default_ddpm 3) (full [2; 1; 2; 2]%nat 1) world0
         = (Raise e, w')) /\
    (forall pred, zero_denoiser x_t t = Return pred ->
       (broadcast_shapes (shape noise) (shape pred) = None ->
          forward stub_rng zero_denoiser (default_ddpm 3) (full [2; 1; 2; 2]%nat 1) world0
            = (Raise RuntimeError, w')) /\
       (forall s, broadcast_shapes (shape noise) (shape pred) = Some s ->
          forward stub_rng zero_denoiser (default_ddpm 3) (full [2; 1; 2; 2]%nat 1) world0
            = (Return (scalar (mean_sq_diff noise pred s)), w')) /\
       (shape pred = shape noise ->
          forward stub_rng zero_denoiser (default_ddpm 3) (full [2; 1; 2; 2]%nat 1) world0
            = (Return (scalar (mean_sq_diff noise pred (shape noise))), w'))).
Proof.
  apply (forward_loss_shapes stub_rng zero_denoiser (1 / 10000, 1 / 50) 3
           (default_ddpm 3) (full [2; 1; 2; 2]%nat 1) 2 1 2 2 world0).
  - exact stub_rng_ok.
  - apply default_ddpm_init. lia.
  - lia.
  - reflexivity.
Defined.

(** C3 fails as stated: a denoiser that returns shape (1, 1, 1, 1) for a
    batch of shape (2, 1, 2, 2) disagrees with the noise, yet [forward]
    raises nothing: the prediction is broadcast and a loss is returned. *)
Lemma forward_broadcasts_mismatch :
  exists noise x_t t pred loss w',
    forward stub_rng flat_denoiser (default_ddpm 3) (full [2; 1; 2; 2]%nat 1) world0
      = (Return loss, w') /\
    calls w' = [(x_t, t)] /\
    flat_denoiser x_t t = Return pred /\
    (noise, gen w') = randn_gen stub_rng [2; 1; 2; 2]%nat 1%nat /\
    shape noise = [2; 1; 2; 2]%nat /\
    shape pred = [1; 1; 1; 1]%nat /\
    shape pred <> shape noise /\
    loss = scalar (mean_sq_diff noise pred [2; 1; 2; 2]%nat).
Proof.
  destruct (forward_run stub_rng flat_denoiser (1 / 10000, 1 / 50) 3 (default_ddpm 3)
              (full [2; 1; 2; 2]%nat 1) 2 1 2 2 world0 stub_rng_ok)
    as [x_t [Hrun _]]; [apply default_ddpm_init; lia | lia | reflexivity |].
  eexists (full [2; 1; 2; 2]%nat 0), x_t, _, (full [1; 1; 1; 1]%nat 0), _, _.
  split; [|split; [|split; [|split; [|split; [|split; [|split]]]]]].
  - rewrite Hrun. unfold flat_denoiser. cbn [obind].
    cbn [stub_rng randn_gen randint_gen fst snd gen world0].
    rewrite (mse_loss_ok _ _ [2; 1; 2; 2]%nat) by reflexivity.
    reflexivity.
  - reflexivity.
  - reflexivity.
  - reflexivity.
  - reflexivity.
  - reflexivity.
  - simpl. discriminate.
  - reflexivity.
Qed.

(** The other side of the same computation: a prediction whose shape
    cannot be broadcast against the noise makes the loss raise. *)
Lemma forward_raises_unbroadcastable :
  exists w',
    forward stub_rng wide_denoiser (default_ddpm 3) (full [2; 1; 2; 2]%nat 1) world0
      = (Raise RuntimeError, w').
Proof.
  destruct (forward_run stub_rng wide_denoiser (1 / 10000, 1 / 50) 3 (default_ddpm 3)
              (full [2; 1; 2; 2]%nat 1) 2 1 2 2 world0 stub_rng_ok)
    as [x_t [Hrun _]]; [apply default_ddpm_init; lia | lia | reflexivity |].
  eexists. rewrite Hrun. unfold wide_denoiser. cbn [obind].
  rewrite mse_loss_raise by reflexivity. reflexivity.
Qed.

(** ** Normalized timesteps *)

Lemma ratio_unit (i T : Z) : (1 <= i <= T)%Z -> 0 < IZR i / IZR T <= 1.
Proof.
  intros H.
  assert (Hi : 1 <= IZR i) by (apply IZR_le; lia).
  assert (HT : IZR i <= IZR T) by (apply IZR_le; lia).
  split.
  - apply Rdiv_lt_0_compat; lra.
  - apply (Rmult_le_reg_r (IZR T)); [lra|].
    unfold Rdiv. rewrite Rmult_assoc, Rinv_l by lra. lra.
Qed.

Lemma step_time_unit (self : DDPM) (n_sample : nat) (i : Z) :
  (1 <= i <= n_T self)%Z -> unit_interval_timestep (step_time self n_sample i).
Proof.
  intros H idx _. unfold step_time, full. cbn [elem]. now apply ratio_unit.
Qed.

Lemma ts_div_unit (ts : list Z) (T : Z) :
  Forall (fun v => (1 <= v <= T)%Z) ts -> unit_interval_timestep (ts_div ts T).
Proof.
  intros H idx Hidx. unfold ts_div in *. cbn [shape elem] in *.
  inversion Hidx as [|b d idx' sh' Hb Hrest]; subst.
  inversion Hrest; subst. cbn [hd].
  apply ratio_unit. rewrite Forall_forall in H. apply H, nth_In, Hb.
Qed.

(** Closes a branch in which the computation stopped before the call. *)
Ltac no_new_call := exists []; cbn; now rewrite app_nil_r.

(** Whatever the batch and the denoiser, [forward] calls the denoiser at
    most once, with the drawn timesteps divided by [n_T]. *)
Lemma forward_calls (E : torch_rng) (model : denoiser) (self : DDPM) (x : tensor)
    (w : world E) :
  rng_ok E ->
  exists trace,
    calls (snd (forward E model self x w)) = calls w ++ trace /\
    Forall (fun c => exists ts, Forall (fun v => (1 <= v <= n_T self)%Z) ts /\
                                snd c = ts_div ts (n_T self)) trace.
Proof.
  intros [Hint _].
  unfold forward, bind, lift, randint, randn, call_model.
  destruct (shape0 x) as [B|e]; [|no_new_call].
  destruct (Z.ltb_spec 1 (n_T self + 1)) as [Hlt|Hge];
    [|no_new_call].
  destruct (Hint 1%Z (n_T self + 1)%Z B (gen w) Hlt) as [_ Hrange].
  assert (Hts : Forall (fun v => (1 <= v <= n_T self)%Z)
                       (fst (randint_gen E 1 (n_T self + 1) B (gen w)))).
  { eapply Forall_impl; [|exact Hrange]. intros v Hv. cbv beta in Hv. lia. }
  cbn [gen calls].
  repeat match goal with
  | |- context [match ?o with Return _ => _ | Raise _ => _ end] =>
      lazymatch o with
      | model _ _ => fail
      | _ => destruct o; [|no_new_call]
      end
  end.
  match goal with
  | |- context [model ?a ?b] =>
      exists [(a, b)]; destruct (model a b); cbn [snd calls];
      (split; [reflexivity|]);
      (constructor; [eexists; split; [exact Hts | reflexivity] | constructor])
  end.
Qed.

(** C10: every timestep tensor that [forward] and [sample] pass to the
    denoiser has all its entries in (0, 1], whatever the object, the
    batch and the denoiser: training divides draws from
    {1, ..., n_T} by [n_T], sampling divides the loop values
    [n_T, ..., 1] by [n_T]. *)
Theorem normalized_timestep_range (E : torch_rng) (model : denoiser) (self : DDPM)
    (x : tensor) (n : nat) (size : list nat) (w : world E) :
  rng_ok E ->
  (exists trace,
     calls (snd (forward E model self x w)) = calls w ++ trace /\
     Forall (fun c => unit_interval_timestep (snd c)) trace) /\
  (exists trace,
     calls (snd (sample E model self n size w)) = calls w ++ trace /\
     Forall (fun c => unit_interval_timestep (snd c)) trace).
Proof.
  intros Hrng. split.
  - destruct (forward_calls E model self x w Hrng) as [trace [Hc Hall]].
    exists trace. split; [exact Hc|].
    eapply Forall_impl; [|exact Hall].
    intros c [ts [Hts ->]]. now apply ts_div_unit.
  - unfold sample, bind, randn.
    destruct (sample_loop_calls E model self n size (range_desc (n_T self) 0)
                (fst (randn_gen E (n :: size) (gen w)))
                (mkWorld (snd (randn_gen E (n :: size) (gen w))) (calls w)))
      as [trace [Hc Hall]].
    exists trace. split; [exact Hc|].
    eapply Forall_impl; [|exact Hall].
    intros c [i [Hi ->]]. apply step_time_unit. apply range_desc_In in Hi. lia.
Qed.

Lemma normalized_timestep_range_witness :
  (exists trace,
     calls (snd (forward stub_rng zero_denoiser (default_ddpm 3)
                   (full [2; 1; 2; 2]%nat 1) world0)) = calls world0 ++ trace /\
     Forall (fun c => unit_interval_timestep (snd c)) trace) /\
  (exists trace,
     calls (snd (sample stub_rng zero_denoiser (default_ddpm 3) 2 [1; 2; 2]%nat world0))
       = calls world0 ++ trace /\
     Forall (fun c => unit_interval_timestep (snd c)) trace).
Proof.
  apply (normalized_timestep_range stub_rng zero_denoiser (default_ddpm 3)
           (full [2; 1; 2; 2]%nat 1) 2 [1; 2; 2]%nat world0).
  exact stub_rng_ok.
Defined.

(** * Further properties of the schedule *)








(** X1: an object that the constructor returns stores [n_T], was built
    from bounds that pass the assertion, and each of its seven buffers
    has [n_T + 1] entries (none when [n_T = -1]). *)
Theorem init_buffer_lengths (betas : R * R) (T : Z) (self : DDPM) :
  DDPM_init betas T = Return self ->
  n_T self = T /\ fst betas < snd betas < 1 /\ (-1 <= T)%Z /\
  forall buf,
    In buf [s_alpha_t (buffers self); s_oneover_sqrta (buffers self);
            s_sqrt_beta_t (buffers self); s_alphabar_t (buffers self);
            s_sqrtab (buffers self); s_sqrtmab (buffers self);
            s_mab_over_sqrtmab (buffers self)] ->
    Z.of_nat (length buf) = (T + 1)%Z.
Proof.
  intros Hinit.
  destruct (DDPM_init_inv _ _ _ Hinit) as (HnT & HT & Hb & _).
  unfold DDPM_init in Hinit.
  destruct (ddpm_schedules (fst betas) (snd betas) T) as [s|e] eqn:Hs; [|discriminate].
  destruct (ddpm_schedules_inv _ _ _ _ Hs) as (Hbetas & _ & _).
  split; [exact HnT|]. split; [exact Hbetas|]. split; [exact HT|].
  pose proof (schedule_of_lengths (beta_t (fst betas) (snd betas) T (steps T))) as HL.
  cbv zeta in HL. rewrite <- Hb, beta_t_length in HL.
  destruct HL as (L1 & L2 & L3 & L4 & L5 & L6 & L7).
  intros buf Hbuf. simpl in Hbuf.
  destruct Hbuf as [<-|[<-|[<-|[<-|[<-|[<-|[<-|[]]]]]]]];
    match goal with H : length ?b = _ |- Z.of_nat (length ?b) = _ => rewrite H; lia end.
Qed.

Lemma init_buffer_lengths_witness :
  n_T (default_ddpm 400) = 400%Z /\
  fst (1 / 10000, 1 / 50) < snd (1 / 10000, 1 / 50) < 1 /\ (-1 <= 400)%Z /\
  forall buf,
    In buf [s_alpha_t (buffers (default_ddpm 400)); s_oneover_sqrta (buffers (default_ddpm 400));
            s_sqrt_beta_t (buffers (default_ddpm 400)); s_alphabar_t (buffers (default_ddpm 400));
            s_sqrtab (buffers (default_ddpm 400)); s_sqrtmab (buffers (default_ddpm 400));
            s_mab_over_sqrtmab (buffers (default_ddpm 400))] ->
    Z.of_nat (length buf) = (400 + 1)%Z.
Proof.
  apply (init_buffer_lengths (1 / 10000, 1 / 50) 400 (default_ddpm 400)).
  apply default_ddpm_init. lia.
Defined.

(** X2: for bounds that pass the assertion and [T >= 1], [alpha_t]
    starts at [1 - beta1], ends at [1 - beta2] and never increases with
    the step. *)
Theorem alpha_nonincreasing (beta1 beta2 : R) (T : Z) :
  beta1 < beta2 < 1 -> (1 <= T)%Z ->
  exists s, ddpm_schedules beta1 beta2 T = Return s /\
    nth 0 (s_alpha_t s) 0 = 1 - beta1 /\
    nth (Z.to_nat T) (s_alpha_t s) 0 = 1 - beta2 /\
    forall t t', (t <= t')%nat -> (Z.of_nat t' <= T)%Z ->
      nth t' (s_alpha_t s) 0 <= nth t (s_alpha_t s) 0.
Proof.
  intros [H1 H2] HT.
  exists (schedule_of (beta_t beta1 beta2 T (steps T))).
  split; [apply ddpm_schedules_valid; [lra | lia]|].
  unfold schedule_of. cbn [s_alpha_t].
  assert (HTR : 0 < IZR T) by (apply IZR_lt; lia).
  assert (Hnth : forall t, (Z.of_nat t <= T)%Z ->
     nth t (alpha_t (beta_t beta1 beta2 T (steps T))) 0 =
     1 - ((beta2 - beta1) * INR t / IZR T + beta1)).
  { intros t Ht. unfold alpha_t.
    rewrite (nth_map_lt _ _ _ _ 0) by (rewrite beta_t_length; lia).
    rewrite beta_t_nth by lia. reflexivity. }
  split; [|split].
  - rewrite Hnth by lia. simpl. unfold Rdiv. ring.
  - rewrite Hnth by lia. rewrite INR_IZR_INZ, Z2Nat.id by lia. field. lra.
  - intros t t' Htt Ht'. rewrite !Hnth by lia.
    assert (Hle : INR t <= INR t') by (apply le_INR; exact Htt).
    assert (Hinv : 0 < / IZR T) by (now apply Rinv_0_lt_compat).
    unfold Rdiv.
    assert (Hk : 0 < (beta2 - beta1) * / IZR T) by (apply Rmult_lt_0_compat; lra).
    replace ((beta2 - beta1) * INR t' * / IZR T) with (((beta2 - beta1) * / IZR T) * INR t')
      by ring.
    replace ((beta2 - beta1) * INR t * / IZR T) with (((beta2 - beta1) * / IZR T) * INR t)
      by ring.
    nra.
Qed.

Lemma alpha_nonincreasing_witness :
  exists s, ddpm_schedules (1 / 10000) (1 / 50) 400 = Return s /\
    nth 0 (s_alpha_t s) 0 = 1 - 1 / 10000 /\
    nth (Z.to_nat 400) (s_alpha_t s) 0 = 1 - 1 / 50 /\
    forall t t', (t <= t')%nat -> (Z.of_nat t' <= 400)%Z ->
      nth t' (s_alpha_t s) 0 <= nth t (s_alpha_t s) 0.
Proof.
  apply (alpha_nonincreasing (1 / 10000) (1 / 50) 400); [lra | lia].
Defined.






(** X6: [beta1 = 0] passes the assertion, and then the schedule has
    [alpha[0] = alphabar[0] = 1] and [sqrtmab[0] = 0]: the entry of index
    0 of [mab_over_sqrtmab] is the quotient of [1 - alpha[0] = 0] by the
    divisor [sqrtmab[0] = 0]. *)
Theorem zero_beta1_zero_divisor (beta2 : R) (T : Z) :
  0 < beta2 < 1 -> (1 <= T)%Z ->
  exists s, ddpm_schedules 0 beta2 T = Return s /\
    nth 0 (s_alpha_t s) 0 = 1 /\
    nth 0 (s_alphabar_t s) 0 = 1 /\
    nth 0 (s_sqrtmab s) 0 = 0 /\
    nth 0 (s_mab_over_sqrtmab s) 0 = (1 - nth 0 (s_alpha_t s) 0) / nth 0 (s_sqrtmab s) 0.
Proof.
  intros [H1 H2] HT.
  exists (schedule_of (beta_t 0 beta2 T (steps T))).
  split; [apply ddpm_schedules_valid; [lra | lia]|].
  destruct (schedule_step_zero 0 beta2 T (conj H1 H2) HT) as [Hab _].
  assert (Hlt : (0 < length (beta_t 0 beta2 T (steps T)))%nat)
    by (rewrite beta_t_length; lia).
  destruct (schedule_of_entries _ _ Hlt) as (E1 & _ & _ & _ & E5 & E6).
  set (s := schedule_of (beta_t 0 beta2 T (steps T))) in *.
  assert (Ha : nth 0 (s_alpha_t s) 0 = 1).
  { rewrite E1, beta_t_nth by lia. simpl. unfold Rdiv. ring. }
  assert (Hm : nth 0 (s_sqrtmab s) 0 = 0).
  { rewrite E5, Hab. replace (1 - (1 - 0)) with 0 by ring. apply sqrt_0. }
  split; [exact Ha|]. split; [rewrite Hab; ring|]. split; [exact Hm|].
  exact E6.
Qed.

Lemma zero_beta1_zero_divisor_witness :
  exists s, ddpm_schedules 0 (1 / 50) 400 = Return s /\
    nth 0 (s_alpha_t s) 0 = 1 /\
    nth 0 (s_alphabar_t s) 0 = 1 /\
    nth 0 (s_sqrtmab s) 0 = 0 /\
    nth 0 (s_mab_over_sqrtmab s) 0 = (1 - nth 0 (s_alpha_t s) 0) / nth 0 (s_sqrtmab s) 0.
Proof.
  apply (zero_beta1_zero_divisor (1 / 50) 400); [lra | lia].
Defined.

(** * Further properties of sampling and of the training loss *)

(** X7: when [n_T <= 0] the loop of [sample] has no iteration: the
    initial noise is returned as it was drawn and the denoiser is never
    called. *)
Theorem sample_no_steps (E : torch_rng) (model : denoiser) (self : DDPM)
    (n : nat) (size : list nat) (w : world E) :
  (n_T self <= 0)%Z ->
  sample E model self n size w =
    (Return (fst (randn_gen E (n :: size) (gen w))),
     mkWorld (snd (randn_gen E (n :: size) (gen w))) (calls w)).
Proof.
  intros H. unfold sample, bind, randn, range_desc.
  replace (Z.to_nat (n_T self - 0)) with 0%nat by lia. reflexivity.
Qed.

Lemma sample_no_steps_witness :
  sample stub_rng zero_denoiser (default_ddpm 0) 2 [1; 2; 2]%nat world0 =
    (Return (fst (randn_gen stub_rng [2; 1; 2; 2]%nat (gen world0))),
     mkWorld (snd (randn_gen stub_rng [2; 1; 2; 2]%nat (gen world0))) (calls world0)).
Proof.
  apply (sample_no_steps stub_rng zero_denoiser (default_ddpm 0) 2 [1; 2; 2]%nat world0).
  simpl. lia.
Defined.

(** X8: [forward] raises before any draw and any call of the denoiser
    when the batch is a 0-dim tensor ([x.shape[0]] is an IndexError) and,
    for any other batch, when [n_T <= 0] ([randint(1, n_T + 1)] has an
    empty range). *)
Theorem forward_raises_early (E : torch_rng) (model : denoiser) (self : DDPM)
    (x : tensor) (w : world E) :
  shape x = [] \/ (n_T self <= 0)%Z ->
  forward E model self x w =
    (Raise (match shape x with [] => IndexError | _ => RuntimeError end), w).
Proof.
  intros H. unfold forward, bind, lift, shape0, randint.
  destruct (shape x) as [|d sh]; [reflexivity|].
  destruct H as [H|H]; [discriminate|].
  destruct (Z.ltb_spec 1 (n_T self + 1)); [lia | reflexivity].
Qed.

Lemma forward_raises_early_witness :
  forward stub_rng zero_denoiser (default_ddpm 0) (full [2; 1; 2; 2]%nat 1) world0 =
    (Raise (match shape (full [2; 1; 2; 2]%nat 1) with
            | [] => IndexError
            | _ => RuntimeError
            end), world0).
Proof.
  apply (forward_raises_early stub_rng zero_denoiser (default_ddpm 0)
           (full [2; 1; 2; 2]%nat 1) world0).
  right. simpl. lia.
Defined.

(** The generator after a loop that ran to its end. *)
Lemma sample_loop_gen (E : torch_rng) (model : denoiser) (self : DDPM)
    (n_sample : nat) (size : list nat) (l : list Z) (x x' : tensor) (w w' : world E) :
  for_each (sample_step E model self n_sample size) l x w = (Return x', w') ->
  gen w' = fold_left (fun g i => step_gen E n_sample size i g) l (gen w).
Proof.
  revert x w. induction l as [|i l IH]; intros x w H.
  - simpl in H. unfold ret in H. now injection H as _ <-.
  - simpl in H. unfold bind in H.
    destruct (sample_step_calls E model self n_sample size x i w) as [_ Hg].
    destruct (sample_step E model self n_sample size x i w) as [[x1|e] w1];
      [|discriminate].
    cbn [snd] in Hg. rewrite (IH _ _ H), Hg. reflexivity.
Qed.

Lemma fold_step_gen_draws (E : torch_rng) (n_sample : nat) (size : list nat)
    (l : list Z) (g : Gen E) :
  Forall (fun i => (1 < i)%Z) l ->
  fold_left (fun g i => step_gen E n_sample size i g) l g =
  Nat.iter (length l) (fun g => snd (randn_gen E (n_sample :: size) g)) g.
Proof.
  intros H. revert g. induction H as [|i l Hi _ IH]; intros g; [reflexivity|].
  cbn [fold_left length]. rewrite IH, Nat.iter_succ_r.
  unfold step_gen. destruct (Z.ltb_spec 1 i); [reflexivity | lia].
Qed.

(** X9: on an object built by the constructor, with a denoiser that
    honours its interface, [sample] returns a tensor of shape
    (n, *size) and advances the generator by exactly [max(1, n_T)] draws
    of [randn(n, *size)]: the initial noise and one [z] per iteration
    but the last. *)
Theorem sample_shape_and_draws (E : torch_rng) (model : denoiser) (betas : R * R)
    (T : Z) (self : DDPM) (n : nat) (size : list nat) (w : world E) :
  rng_ok E -> shape_preserving model -> DDPM_init betas T = Return self ->
  exists x w',
    sample E model self n size w = (Return x, w') /\
    shape x = n :: size /\
    gen w' = Nat.iter (Z.to_nat (Z.max 1 T))
                      (fun g => snd (randn_gen E (n :: size) g)) (gen w).
Proof.
  intros Hrng Hmodel Hinit.
  destruct (DDPM_init_inv _ _ _ Hinit) as (HnT & HT & _ & L1 & L2 & L3 & _).
  destruct (Z_lt_le_dec T 1) as [Hsmall|Hbig].
  - exists (fst (randn_gen E (n :: size) (gen w))),
           (mkWorld (snd (randn_gen E (n :: size) (gen w))) (calls w)).
    split; [apply sample_no_steps; lia|]. split; [apply Hrng|].
    replace (Z.to_nat (Z.max 1 T)) with 1%nat by lia. reflexivity.
  - assert (Hin : Forall (fun i => (0 <= i < Z.of_nat (Z.to_nat (T + 1)))%Z)
                         (range_desc T 0)).
    { apply Forall_forall. intros i Hi. apply range_desc_In in Hi. lia. }
    set (x0 := fst (randn_gen E (n :: size) (gen w))).
    set (w0 := mkWorld (snd (randn_gen E (n :: size) (gen w))) (calls w)).
    assert (Hx0 : shape x0 = n :: size) by apply Hrng.
    destruct (sample_loop_run E model self n size _ Hrng Hmodel L1 L2 L3 _ Hin x0 w0 Hx0)
      as [x [w' [trace [Hloop [Hx _]]]]].
    exists x, w'. split; [|split; [exact Hx|]].
    + unfold sample, bind, randn. rewrite HnT. exact Hloop.
    + rewrite (sample_loop_gen _ _ _ _ _ _ _ _ _ _ Hloop).
      rewrite range_desc_last, fold_left_app by exact Hbig.
      rewrite (fold_step_gen_draws E n size (range_desc T 1))
        by (apply Forall_forall; intros i Hi; apply range_desc_In in Hi; lia).
      rewrite range_desc_length. cbn [fold_left gen w0]. unfold step_gen at 1.
      change (1 <? 1)%Z with false. cbv iota.
      replace (Z.to_nat (Z.max 1 T)) with (S (Z.to_nat (T - 1))) by lia.
      rewrite Nat.iter_succ_r. reflexivity.
Qed.

Lemma sample_shape_and_draws_witness :
  exists x w',
    sample stub_rng zero_denoiser (default_ddpm 3) 2 [1; 2; 2]%nat world0 = (Return x, w') /\
    shape x = [2; 1; 2; 2]%nat /\
    gen w' = Nat.iter (Z.to_nat (Z.max 1 3))
                      (fun g => snd (randn_gen stub_rng [2; 1; 2; 2]%nat g)) (gen world0).
Proof.
  apply (sample_shape_and_draws stub_rng zero_denoiser (1 / 10000, 1 / 50) 3
           (default_ddpm 3) 2 [1; 2; 2]%nat world0).
  - exact stub_rng_ok.
  - exact zero_denoiser_ok.
  - apply default_ddpm_init. lia.
Defined.

(** X10: an exception of the denoiser leaves [sample] unchanged.  In the
    iteration [i] in which the denoiser raises, the noise [z] has already
    been drawn and the call is recorded; no later iteration runs, whatever
    the remaining loop values. *)
Theorem sample_denoiser_exception (E : torch_rng) (model : denoiser) (self : DDPM)
    (n : nat) (size : list nat) (x_i : tensor) (i : Z) (rest : list Z)
    (e : exn) (w : world E) :
  model x_i (full [n; 1; 1; 1]%nat (IZR i / IZR (n_T self))) = Raise e ->
  for_each (sample_step E model self n size) (i :: rest) x_i w =
    (Raise e,
     mkWorld (if (1 <? i)%Z then snd (randn_gen E (n :: size) (gen w)) else gen w)
             (calls w ++ [(x_i, full [n; 1; 1; 1]%nat (IZR i / IZR (n_T self)))])).
Proof.
  intros Hm. cbn [for_each]. unfold bind at 1.
  unfold sample_step, bind, lift, call_model, randn, ret.
  destruct (1 <? i)%Z; cbn [gen calls]; rewrite Hm; reflexivity.
Qed.

Lemma sample_denoiser_exception_witness :
  for_each (sample_step stub_rng (fun _ _ => Raise IndexError) (default_ddpm 3) 2 [1; 2; 2]%nat)
           (3%Z :: [2; 1]%Z) (full [2; 1; 2; 2]%nat 1) world0 =
    (Raise IndexError,
     mkWorld (if (1 <? 3)%Z then snd (randn_gen stub_rng [2; 1; 2; 2]%nat (gen world0))
              else gen world0)
             (calls world0 ++
              [(full [2; 1; 2; 2]%nat 1,
                full [2; 1; 1; 1]%nat (IZR 3 / IZR (n_T (default_ddpm 3))))])).
Proof.
  apply (sample_denoiser_exception stub_rng (fun _ _ => Raise IndexError) (default_ddpm 3)
           2 [1; 2; 2]%nat (full [2; 1; 2; 2]%nat 1) 3 [2; 1]%Z IndexError world0).
  reflexivity.
Defined.

(** ** The value of the loss *)

Lemma indices_valid (sh idx : list nat) : In idx (indices sh) -> valid_idx sh idx.
Proof.
  revert idx. induction sh as [|d sh IH]; intros idx H; simpl in H.
  - destruct H as [<-|[]]. constructor.
  - apply in_flat_map in H. destruct H as [i [Hi H]].
    apply in_map_iff in H. destruct H as [idx' [<- H']].
    apply in_seq in Hi. constructor; [lia | now apply IH].
Qed.

Lemma valid_indices (sh idx : list nat) : valid_idx sh idx -> In idx (indices sh).
Proof.
  unfold valid_idx. induction 1 as [|i d idx sh Hid _ IH]; simpl; [now left|].
  apply in_flat_map. exists i. split; [apply in_seq; lia|].
  apply in_map. exact IH.
Qed.

Lemma sum_nonneg {A : Type} (f : A -> R) (l : list A) :
  (forall a, In a l -> 0 <= f a) -> 0 <= fold_right Rplus 0 (map f l).
Proof.
  induction l as [|a l IH]; intros H; simpl; [lra|].
  assert (0 <= f a) by (apply H; now left).
  assert (0 <= fold_right Rplus 0 (map f l)) by (apply IH; intros; apply H; now right).
  lra.
Qed.

Lemma sum_zero_terms {A : Type} (f : A -> R) (l : list A) :
  (forall a, In a l -> 0 <= f a) ->
  fold_right Rplus 0 (map f l) = 0 <-> (forall a, In a l -> f a = 0).
Proof.
  induction l as [|a l IH]; intros H; simpl.
  - split; [intros _ a [] | reflexivity].
  - assert (Ha : 0 <= f a) by (apply H; now left).
    assert (Hl : forall b, In b l -> 0 <= f b) by (intros; apply H; now right).
    pose proof (sum_nonneg f l Hl) as Hs. specialize (IH Hl). split.
    + intros Hsum b [<-|Hb]; [lra|]. apply IH; [lra | exact Hb].
    + intros Hall. rewrite (Hall a) by now left.
      rewrite (proj2 IH) by (intros; apply Hall; now right). ring.
Qed.

Lemma numel_batch_positive (B C H W : nat) :
  (0 < B)%nat -> (0 < C)%nat -> (0 < H)%nat -> (0 < W)%nat -> 0 < INR (numel [B; C; H; W]).
Proof.
  intros HB HC HH HW. apply lt_0_INR. simpl.
  repeat apply Nat.mul_pos_pos; lia.
Qed.

(** The mean squared difference of two tensors of one shape, in exact
    arithmetic: it is not negative, and it is zero exactly when the
    tensors agree at every index of the shape. *)
Lemma mean_sq_diff_zero (a b : tensor) (s : list nat) :
  shape a = s -> shape b = s -> 0 < INR (numel s) ->
  0 <= mean_sq_diff a b s /\
  (mean_sq_diff a b s = 0 <-> forall idx, valid_idx s idx -> elem b idx = elem a idx).
Proof.
  intros Ha Hb Hn. unfold mean_sq_diff. rewrite Ha, Hb.
  set (f := fun idx => (elem a (bidx s idx) - elem b (bidx s idx))
                       * (elem a (bidx s idx) - elem b (bidx s idx))).
  assert (Hf : forall idx, In idx (indices s) -> 0 <= f idx).
  { intros idx _. unfold f. apply Rle_0_sqr. }
  pose proof (sum_nonneg f _ Hf) as Hs.
  assert (Hinv : 0 < / INR (numel s)) by (now apply Rinv_0_lt_compat).
  split; [unfold Rdiv; nra|].
  split.
  - intros H0 idx Hidx.
    assert (Hsum : fold_right Rplus 0 (map f (indices s)) = 0).
    { unfold Rdiv in H0. apply Rmult_integral in H0. destruct H0; [assumption | lra]. }
    pose proof (proj1 (sum_zero_terms f _ Hf) Hsum idx (valid_indices _ _ Hidx)) as Ht.
    unfold f in Ht. rewrite (bidx_valid _ _ Hidx) in Ht.
    apply Rmult_integral in Ht. destruct Ht; lra.
  - intros Hall.
    rewrite (proj2 (sum_zero_terms f _ Hf)); [unfold Rdiv; ring|].
    intros idx Hin. unfold f.
    pose proof (indices_valid _ _ Hin) as Hidx.
    rewrite (bidx_valid _ _ Hidx), (Hall idx Hidx). ring.
Qed.

(** X11: on a batch of shape (B, C, H, W) with no empty dimension and a
    denoiser that honours its interface, [forward] returns a loss that
    is not negative, and that is zero when the prediction equals the
    drawn noise at every index. *)
Theorem forward_loss_zero (E : torch_rng) (model : denoiser) (betas : R * R)
    (T : Z) (self : DDPM) (x : tensor) (B C H W : nat) (w : world E) :
  rng_ok E -> shape_preserving model ->
  DDPM_init betas T = Return self -> (1 <= T)%Z ->
  shape x = [B; C; H; W] ->
  (0 < B)%nat -> (0 < C)%nat -> (0 < H)%nat -> (0 < W)%nat ->
  exists noise x_t t pred loss w',
    forward E model self x w = (Return (scalar loss), w') /\
    calls w' = calls w ++ [(x_t, t)] /\
    model x_t t = Return pred /\
    (noise, gen w') = randn_gen E (shape x) (snd (randint_gen E 1 (T + 1) B (gen w))) /\
    0 <= loss /\
    ((forall idx, valid_idx [B; C; H; W] idx -> elem pred idx = elem noise idx) -> loss = 0).
Proof.
  intros Hrng Hmodel Hinit HT Hx HB HC HH HW.
  destruct (forward_run E model betas T self x B C H W w Hrng Hinit HT Hx)
    as [x_t [Hrun [Hxt _]]].
  set (ts := fst (randint_gen E 1 (T + 1) B (gen w))) in *.
  set (g1 := snd (randint_gen E 1 (T + 1) B (gen w))) in *.
  set (noise := fst (randn_gen E [B; C; H; W] g1)) in *.
  destruct (Hmodel x_t (ts_div ts T)) as [pred [Hp Hps]].
  assert (Hn : shape noise = [B; C; H; W]) by apply Hrng.
  assert (Hps' : shape pred = [B; C; H; W]) by congruence.
  destruct (mean_sq_diff_zero noise pred [B; C; H; W] Hn Hps'
              (numel_batch_positive B C H W HB HC HH HW)) as [Hpos Hzero].
  exists noise, x_t, (ts_div ts T), pred, (mean_sq_diff noise pred [B; C; H; W]),
         (snd (forward E model self x w)).
  rewrite Hrun, Hp. cbn [obind snd gen calls].
  rewrite (mse_loss_ok noise pred [B; C; H; W])
    by (rewrite Hn, Hps'; apply broadcast_same).
  split; [reflexivity|]. split; [reflexivity|]. split; [reflexivity|].
  split; [rewrite Hx; unfold noise; now destruct (randn_gen E [B; C; H; W] g1)|].
  split; [exact Hpos | exact (proj2 Hzero)].
Qed.

Lemma forward_loss_zero_witness :
  exists noise x_t t pred loss w',
    forward stub_rng zero_denoiser (default_ddpm 3) (full [2; 1; 2; 2]%nat 1) world0
      = (Return (scalar loss), w') /\
    calls w' = calls world0 ++ [(x_t, t)] /\
    zero_denoiser x_t t = Return pred /\
    (noise, gen w') = randn_gen stub_rng (shape (full [2; 1; 2; 2]%nat 1))
                        (snd (randint_gen stub_rng 1 (3 + 1) 2 (gen world0))) /\
    0 <= loss /\
    ((forall idx, valid_idx [2; 1; 2; 2]%nat idx -> elem pred idx = elem noise idx) -> loss = 0).
Proof.
  apply (forward_loss_zero stub_rng zero_denoiser (1 / 10000, 1 / 50) 3
           (default_ddpm 3) (full [2; 1; 2; 2]%nat 1) 2 1 2 2 world0).
  - exact stub_rng_ok.
  - exact zero_denoiser_ok.
  - apply default_ddpm_init. lia.
  - lia.
  - reflexivity.
  - lia.
  - lia.
  - lia.
  - lia.
Defined.

(** ** A batch that is not four-dimensional *)

Lemma broadcast_flat_batch (B D : nat) :
  broadcast_shapes [B; 1; 1; 1]%nat [B; D] = Some [B; 1; B; D]%nat.
Proof.
  unfold broadcast_shapes. simpl. now rewrite !bdim_one_l.
Qed.

Lemma bidx_flat_batch (B D b b' d : nat) :
  (b' < B)%nat -> (d < D)%nat -> bidx [B; D] [b; 0; b'; d]%nat = [b'; d].
Proof.
  intros Hb Hd. unfold bidx. simpl.
  destruct (Nat.eqb_spec B 1); destruct (Nat.eqb_spec D 1); f_equal; try lia; f_equal; lia.
Qed.

(** X12: [forward] does not reject a two-dimensional batch (B, D).  The
    coefficient of shape (B, 1, 1, 1) is broadcast against it, so the
    denoiser receives a tensor of shape (B, 1, B, D) whose entry
    (b, 0, b', d) combines example [b'] with the timestep drawn for
    example [b]. *)
Theorem forward_flat_batch (E : torch_rng) (model : denoiser) (betas : R * R) (T : Z)
    (self : DDPM) (x : tensor) (B D : nat) (w : world E) :
  rng_ok E -> DDPM_init betas T = Return self -> (1 <= T)%Z ->
  shape x = [B; D] ->
  let ts := fst (randint_gen E 1 (T + 1) B (gen w)) in
  let noise := fst (randn_gen E [B; D] (snd (randint_gen E 1 (T + 1) B (gen w)))) in
  exists x_t,
    calls (snd (forward E model self x w)) = calls w ++ [(x_t, ts_div ts T)] /\
    shape x_t = [B; 1; B; D]%nat /\
    forall b b' d, (b < B)%nat -> (b' < B)%nat -> (d < D)%nat ->
      elem x_t [b; 0; b'; d]%nat =
        nth (Z.to_nat (nth b ts 0%Z)) (s_sqrtab (buffers self)) 0 * elem x [b'; d]
        + nth (Z.to_nat (nth b ts 0%Z)) (s_sqrtmab (buffers self)) 0 * elem noise [b'; d].
Proof.
  intros [Hint Hrandn] Hinit HT Hx ts noise.
  destruct (DDPM_init_inv _ _ _ Hinit) as (HnT & _ & _ & _ & _ & _ & L4 & L5).
  destruct (Hint 1%Z (T + 1)%Z B (gen w)) as [Hlen Hrange]; [lia|].
  fold ts in Hlen, Hrange.
  assert (Hnoise : shape noise = [B; D]) by apply Hrandn.
  assert (Hin : forall buf : list R, length buf = Z.to_nat (T + 1) ->
            Forall (fun v => (0 <= v < Z.of_nat (length buf))%Z) ts).
  { intros buf Hl. eapply Forall_impl; [|exact Hrange]. intros v Hv. cbv beta in Hv. lia. }
  assert (Hnth : forall b, (b < B)%nat -> (1 <= nth b ts 0 < T + 1)%Z).
  { intros b Hb. rewrite Forall_forall in Hrange. apply Hrange, nth_In. lia. }
  unfold forward, bind, lift, randint, randn, call_model, shape0.
  rewrite Hx, HnT. destruct (Z.ltb_spec 1 (T + 1)); [|lia].
  cbn [gen calls]. fold ts. fold noise.
  rewrite !getitem_ts_in_range by auto.
  unfold tmul, tadd. rewrite Hlen.
  rewrite (tensor_op_ok Rmult _ x [B; 1; B; D]%nat)
    by (rewrite Hx; apply broadcast_flat_batch).
  rewrite (tensor_op_ok Rmult _ noise [B; 1; B; D]%nat)
    by (rewrite Hnoise; apply broadcast_flat_batch).
  rewrite (tensor_op_ok Rplus _ _ [B; 1; B; D]%nat) by apply broadcast_same.
  match goal with |- context [model ?a ?b] => exists a end.
  split; [|split].
  - match goal with |- context [model ?a ?b] => destruct (model a b) end.
    + match goal with |- context [mse_loss ?a ?b] => destruct (mse_loss a b) end;
        reflexivity.
    + reflexivity.
  - reflexivity.
  - intros b b' d Hb Hb' Hd. cbn [shape elem].
    assert (Hidx : valid_idx [B; 1; B; D]%nat [b; 0; b'; d]%nat)
      by (repeat constructor; assumption || lia).
    rewrite Hx, Hnoise, !(bidx_valid _ _ Hidx), (bidx_per_example B b 0 b' d Hb),
      (bidx_flat_batch B D b b' d Hb' Hd).
    cbn [hd]. specialize (Hnth b Hb).
    rewrite !pyindex_in_range by (rewrite ?L4, ?L5; lia). reflexivity.
Qed.

Lemma forward_flat_batch_witness :
  let ts := fst (randint_gen stub_rng 1 (3 + 1) 2 (gen world0)) in
  let noise := fst (randn_gen stub_rng [2; 5]%nat
                      (snd (randint_gen stub_rng 1 (3 + 1) 2 (gen world0)))) in
  exists x_t,
    calls (snd (forward stub_rng zero_denoiser (default_ddpm 3) (full [2; 5]%nat 1) world0))
      = calls world0 ++ [(x_t, ts_div ts 3)] /\
    shape x_t = [2; 1; 2; 5]%nat /\
    forall b b' d, (b < 2)%nat -> (b' < 2)%nat -> (d < 5)%nat ->
      elem x_t [b; 0; b'; d]%nat =
        nth (Z.to_nat (nth b ts 0%Z)) (s_sqrtab (buffers (default_ddpm 3))) 0
          * elem (full [2; 5]%nat 1) [b'; d]
        + nth (Z.to_nat (nth b ts 0%Z)) (s_sqrtmab (buffers (default_ddpm 3))) 0
          * elem noise [b'; d].
Proof.
  apply (forward_flat_batch stub_rng zero_denoiser (1 / 10000, 1 / 50) 3
           (default_ddpm 3) (full [2; 5]%nat 1) 2 5 world0).
  - exact stub_rng_ok.
  - apply default_ddpm_init. lia.
  - lia.
  - reflexivity.
Defined.

(** * The visualization checkpoint *)

Example format_02_seven : format_02 7 = "07"%string.
Proof. reflexivity. Qed.

Example format_02_nineteen : format_02 19 = "19"%string.
Proof. reflexivity. Qed.

Example format_02_wide : format_02 123 = "123"%string.
Proof. reflexivity. Qed.

Example image_path_default :
  image_path "results/Diffusion" 7 = "results/Diffusion/07.jpg"%string.
Proof. reflexivity. Qed.

Example image_path_trailing_sep : image_path "out/" 0 = "out/00.jpg"%string.
Proof. reflexivity. Qed.

Example image_path_empty_dir : image_path "" 3 = "03.jpg"%string.
Proof. reflexivity. Qed.

Lemma append_cancel_l (p a b : string) : (p ++ a = p ++ b)%string -> a = b.
Proof.
  induction p as [|c p IH]; simpl; intros H; [exact H|].
  injection H as H. now apply IH.
Qed.

Lemma string_length_append (a b : string) :
  String.length (a ++ b) = (String.length a + String.length b)%nat.
Proof.
  induction a as [|c a IH]; simpl; [reflexivity|]. now rewrite IH.
Qed.

Lemma append_cancel_r (a b c : string) : (a ++ c = b ++ c)%string -> a = b.
Proof.
  revert b. induction a as [|x a IH]; intros [|y b] H; simpl in H.
  - reflexivity.
  - apply (f_equal String.length) in H. simpl in H.
    rewrite string_length_append in H. lia.
  - apply (f_equal String.length) in H. simpl in H.
    rewrite string_length_append in H. lia.
  - injection H as -> H. f_equal. now apply IH.
Qed.

(** The epoch can be read back from its formatted form. *)
Lemma format_02_decode (epoch : nat) :
  option_map Nat.of_uint (NilEmpty.uint_of_string (format_02 epoch)) = Some epoch.
Proof.
  unfold format_02.
  destruct (String.length (NilEmpty.string_of_uint (Nat.to_uint epoch)) <? 2)%nat.
  - cbn [NilEmpty.uint_of_string]. rewrite NilEmpty.usu.
    change (Some (Nat.of_uint (D0 (Nat.to_uint epoch))) = Some epoch).
    change (Nat.of_uint (D0 (Nat.to_uint epoch))) with (Nat.of_uint (Nat.to_uint epoch)).
    f_equal. apply Unsigned.of_to.
  - rewrite NilEmpty.usu. cbn [option_map]. f_equal. apply Unsigned.of_to.
Qed.

Lemma format_02_no_sep (epoch : nat) (rest : string) :
  starts_with_sep (format_02 epoch ++ rest) = false.
Proof.
  unfold format_02.
  destruct (String.length (NilEmpty.string_of_uint (Nat.to_uint epoch)) <? 2)%nat eqn:Hlen;
    [reflexivity|].
  destruct (Nat.to_uint epoch); try reflexivity.
  simpl in Hlen. discriminate.
Qed.

(** [sample] on any object built by the constructor, with a denoiser
    that honours its interface. *)
Lemma sample_returns (E : torch_rng) (model : denoiser) (betas : R * R) (T : Z)
    (self : DDPM) (n : nat) (size : list nat) (w : world E) :
  rng_ok E -> shape_preserving model -> DDPM_init betas T = Return self ->
  exists x w' trace,
    sample E model self n size w = (Return x, w') /\
    shape x = n :: size /\
    calls w' = calls w ++ trace /\
    length trace = Z.to_nat T /\
    Forall (fun c => shape (fst c) = n :: size) trace.
Proof.
  intros Hrng Hmodel Hinit.
  destruct (DDPM_init_inv _ _ _ Hinit) as (HnT & HT & _ & L1 & L2 & L3 & _).
  assert (Hin : Forall (fun i => (0 <= i < Z.of_nat (Z.to_nat (T + 1)))%Z)
                       (range_desc T 0)).
  { apply Forall_forall. intros i Hi. apply range_desc_In in Hi. lia. }
  assert (Hx0 : shape (fst (randn_gen E (n :: size) (gen w))) = n :: size) by apply Hrng.
  destruct (sample_loop_run E model self n size _ Hrng Hmodel L1 L2 L3 _ Hin
              (fst (randn_gen E (n :: size) (gen w)))
              (mkWorld (snd (randn_gen E (n :: size) (gen w))) (calls w)) Hx0)
    as [x [w' [trace [Hloop [Hx [Hc HF]]]]]].
  exists x, w', trace.
  split; [unfold sample, bind, randn; rewrite HnT; exact Hloop|].
  split; [exact Hx|]. split; [exact Hc|]. split.
  - rewrite <- (Forall2_length HF), range_desc_length. f_equal. lia.
  - clear Hloop Hc Hin. induction HF as [|i c l tr [_ Hs] _ IH]; constructor; assumption.
Qed.

(** X13: a visualization checkpoint of a generator built by
    [ImageGenerator] first creates the output directory; when that
    raises, the exception propagates before any draw and any call of the
    denoiser.  Otherwise the denoiser is called exactly [n_T] times
    (never, when [n_T <= 0]), each time on the whole batch of 100 samples
    of shape (1, 28, 28), and [save_image] is handed a batch of shape
    (100, 1, 28, 28), the file of the epoch and 10 images per row: a
    full 10 x 10 grid. *)
Theorem checkpoint_export (E : torch_rng) (model : denoiser) (fs : file_system)
    (lr : R) (T : Z) (self : ImageGenerator) (epoch : nat) (output_path : string)
    (w : world E) :
  rng_ok E -> shape_preserving model -> ImageGenerator_init lr T = Return self ->
  (forall e, makedirs fs output_path = Raise e ->
     visualize_results E model fs self epoch output_path w = (Raise e, w)) /\
  (makedirs fs output_path = Return tt ->
   exists out w' trace,
     visualize_results E model fs self epoch output_path w =
       (Return {| image := out; path := image_path output_path epoch; nrow := 10 |}, w') /\
     shape out = [100; 1; 28; 28]%nat /\
     g_sample_num self = (10 * 10)%nat /\
     calls w' = calls w ++ trace /\
     length trace = Z.to_nat T /\
     Forall (fun c => shape (fst c) = [100; 1; 28; 28]%nat) trace).
Proof.
  intros Hrng Hmodel Hinit. split.
  - intros e He. unfold visualize_results, bind, lift. rewrite He. reflexivity.
  - intros Hdir.
    unfold ImageGenerator_init in Hinit.
    destruct (DDPM_init (1 / 10000, 1 / 50) T) as [d|e] eqn:Hd; [|discriminate].
    simpl in Hinit. injection Hinit as <-.
    destruct (sample_returns E model _ T d 100 [1; 28; 28]%nat w Hrng Hmodel Hd)
      as [out [w' [trace [Hs [Hshape [Hc [Hlen HF]]]]]]].
    exists out, w', trace.
    split; [|split; [exact Hshape|split; [reflexivity|split; [exact Hc|split; assumption]]]].
    unfold visualize_results, bind, lift, ret. rewrite Hdir. cbn [g_sample_num g_sampler].
    rewrite Hs. reflexivity.
Qed.

Lemma checkpoint_export_witness :
  exists self, ImageGenerator_init (1 / 10000) 3 = Return self /\
  (forall e, makedirs writable_fs "results/Diffusion" = Raise e ->
     visualize_results stub_rng zero_denoiser writable_fs self 0 "results/Diffusion" world0
       = (Raise e, world0)) /\
  (makedirs writable_fs "results/Diffusion" = Return tt ->
   exists out w' trace,
     visualize_results stub_rng zero_denoiser writable_fs self 0 "results/Diffusion" world0 =
       (Return {| image := out; path := image_path "results/Diffusion" 0; nrow := 10 |}, w') /\
     shape out = [100; 1; 28; 28]%nat /\
     g_sample_num self = (10 * 10)%nat /\
     calls w' = calls world0 ++ trace /\
     length trace = Z.to_nat 3 /\
     Forall (fun c => shape (fst c) = [100; 1; 28; 28]%nat) trace).
Proof.
  assert (Hinit : ImageGenerator_init (1 / 10000) 3 =
                  Return (mkImageGenerator 20 100 256 (1 / 10000) 3 (default_ddpm 3))).
  { unfold ImageGenerator_init. rewrite default_ddpm_init by lia. reflexivity. }
  exists (mkImageGenerator 20 100 256 (1 / 10000) 3 (default_ddpm 3)).
  split; [exact Hinit|].
  apply (checkpoint_export stub_rng zero_denoiser writable_fs (1 / 10000) 3 _ 0
           "results/Diffusion" world0 stub_rng_ok zero_denoiser_ok Hinit).
Defined.

(** With the empty output path the checkpoint raises before sampling,
    whatever the file system; with a directory that can be created it
    returns. *)
Lemma checkpoint_empty_path (E : torch_rng) (model : denoiser) (fs : file_system)
    (self : ImageGenerator) (epoch : nat) (w : world E) :
  visualize_results E model fs self epoch "" w = (Raise OSError, w).
Proof. reflexivity. Qed.

Lemma checkpoint_default_path_returns :
  exists saved w',
    visualize_results stub_rng zero_denoiser writable_fs
      (mkImageGenerator 20 100 256 (1 / 10000) 3 (default_ddpm 3)) 0 "results/Diffusion" world0
      = (Return saved, w') /\
    path saved = "results/Diffusion/00.jpg"%string /\ nrow saved = 10%nat.
Proof.
  destruct (sample_returns stub_rng zero_denoiser _ 3 (default_ddpm 3) 100 [1; 28; 28]%nat
              world0 stub_rng_ok zero_denoiser_ok (default_ddpm_init 3 ltac:(lia)))
    as [out [w' [trace [Hs _]]]].
  exists {| image := out; path := image_path "results/Diffusion" 0; nrow := 10 |}, w'.
  split; [|split; reflexivity].
  unfold visualize_results, bind, lift, ret. cbn [makedirs writable_fs g_sample_num g_sampler].
  rewrite Hs. reflexivity.
Qed.

(** X14: for one output directory, different epochs are written to
    different files: no checkpoint image overwrites another. *)
Theorem image_path_distinct (output_path : string) (epoch1 epoch2 : nat) :
  epoch1 <> epoch2 -> image_path output_path epoch1 <> image_path output_path epoch2.
Proof.
  intros Hne Heq. apply Hne.
  assert (Hfmt : format_02 epoch1 = format_02 epoch2).
  { apply (append_cancel_r _ _ ".jpg").
    unfold image_path, path_join in Heq. rewrite !format_02_no_sep in Heq.
    destruct output_path as [|c p]; [exact Heq|].
    destruct (ends_with_sep (String c p)).
    - now apply append_cancel_l in Heq.
    - apply append_cancel_l in Heq. now apply (append_cancel_l "/") in Heq. }
  pose proof (format_02_decode epoch1) as H1. rewrite Hfmt, format_02_decode in H1.
  now injection H1.
Qed.

Lemma image_path_distinct_witness :
  image_path "results/Diffusion" 0 <> image_path "results/Diffusion" 19.
Proof.
  apply (image_path_distinct "results/Diffusion" 0 19). lia.
Defined.
